(** * Contentstorage i18next plugin: the value-to-key tracking store

    A shallow embedding of [src/utils.ts] (key normalisation, base-key
    extraction, the tracking store, eviction, flattening) and of the
    per-call hook of [src/post-processor.ts], with the properties of the
    specification stated over it.

    JavaScript strings are modelled as [string]; a [Map] as an association
    list in insertion order with pairwise distinct keys; a [Set] as a
    duplicate-free list in insertion order; numbers that the code only uses
    as integers (timestamps, sizes) as [Z]. *)

From Stdlib Require Import String Ascii List ZArith Lia Bool Permutation Sorted.
Import ListNotations.

Local Open Scope string_scope.

(* ================================================================== *)
(** ** String primitives of the host language *)

Module JsString.

(** [s.includes(pat)]: [pat] occurs somewhere in [s]. *)
Fixpoint includes (pat s : string) : bool :=
  if prefix pat s then true
  else match s with
       | EmptyString => false
       | String _ s' => includes pat s'
       end.

(** Drop the first [n] characters. *)
Fixpoint drop (n : nat) (s : string) : string :=
  match n, s with
  | O, _ => s
  | S _, EmptyString => EmptyString
  | S n', String _ s' => drop n' s'
  end.

(** [s.replace(pat, rep)] with a string pattern: only the leftmost
    occurrence is replaced ([rep] holds no dollar pattern here). *)
Fixpoint replace (pat rep s : string) : string :=
  if prefix pat s then rep ++ drop (String.length pat) s
  else match s with
       | EmptyString => EmptyString
       | String c s' => String c (replace pat rep s')
       end.

(** Number of occurrences of a character. *)
Fixpoint count (c : ascii) (s : string) : nat :=
  match s with
  | EmptyString => 0
  | String d s' => (if Ascii.eqb d c then 1 else 0) + count c s'
  end.

(** [true] when the character occurs in the string. *)
Fixpoint has_char (c : ascii) (s : string) : bool :=
  match s with
  | EmptyString => false
  | String d s' => Ascii.eqb d c || has_char c s'
  end.

End JsString.

(* ================================================================== *)
(** ** Key normaliser ([normalizeKey], utils.ts 148-163) *)

(** The [namespace] argument is accepted and discarded ([void namespace]). *)
Definition normalizeKey (key : string) (namespace : option string) : string :=
  let normalizedKey := key in
  if JsString.includes ":" normalizedKey
  then JsString.replace ":" "." normalizedKey
  else normalizedKey.

(** The one-argument contract of the specification. *)
Definition normalize (rawKey : string) : string := normalizeKey rawKey None.

(* ================================================================== *)
(** ** Base-key extraction ([extractBaseKey], utils.ts 177-195) *)

Definition plural_suffixes : list string :=
  ["zero"; "one"; "two"; "few"; "many"; "other"; "plural"].

(** The regular expression [/_(zero|one|two|few|many|other|plural)$/] tried
    at the current position: an underscore, one alternative, end of input. *)
Definition plural_match_here (s : string) : bool :=
  existsb (fun w => String.eqb s ("_" ++ w)) plural_suffixes.

(** [key.replace(/_(...)$/, '')]: the leftmost position where the pattern
    matches is cut out (the match runs to the end of the input). *)
Fixpoint strip_plural (s : string) : string :=
  if plural_match_here s then EmptyString
  else match s with
       | EmptyString => EmptyString
       | String c s' => String c (strip_plural s')
       end.

(** The context-suffix block of the source (lines 184-192) computes
    [lastUnderscore] and [suffix] and then does nothing with them: both
    arms of its conditionals leave [baseKey] as it is. *)
Definition extractBaseKey (key : string) : string :=
  let baseKey := strip_plural key in
  baseKey.

(* ================================================================== *)
(** ** Data model ([src/types.ts]) *)

Local Open Scope Z_scope.

(** A [Set<string>]: duplicate-free, in insertion order. *)
Module JsSet.

Definition t := list string.

Definition empty : t := [].

Definition has (x : string) (s : t) : bool := existsb (String.eqb x) s.

(** [s.add(x)]: appends [x] unless it is already a member. *)
Definition add (x : string) (s : t) : t := if has x s then s else (s ++ [x])%list.

Definition size (s : t) : nat := List.length s.

End JsSet.

(** A [Map<string, V>]: one binding per key, in insertion order. *)
Module JsMap.

Section Ops.
Context {V : Type}.

Definition t := list (string * V).

Fixpoint get (k : string) (m : t) : option V :=
  match m with
  | [] => None
  | (k', v) :: m' => if String.eqb k k' then Some v else get k m'
  end.

Definition has (k : string) (m : t) : bool :=
  match get k m with Some _ => true | None => false end.

(** [m.set(k, v)]: an existing key keeps its position and gets the new
    value; a new key goes to the end. *)
Fixpoint set (k : string) (v : V) (m : t) : t :=
  match m with
  | [] => [(k, v)]
  | (k', v') :: m' =>
      if String.eqb k k' then (k', v) :: m' else (k', v') :: set k v m'
  end.

(** [m.delete(k)]. *)
Fixpoint delete (k : string) (m : t) : t :=
  match m with
  | [] => []
  | (k', v') :: m' =>
      if String.eqb k k' then m' else (k', v') :: delete k m'
  end.

Definition size (m : t) : Z := Z.of_nat (List.length m).

Definition keys (m : t) : list string := map fst m.

(** The representation invariant of a [Map]: keys are distinct. *)
Definition wf (m : t) : Prop := NoDup (keys m).

End Ops.

Arguments t : clear implicits.

End JsMap.

Record Metadata : Type := mkMetadata
  { md_namespace : option string;
    md_language  : option string;
    trackedAt    : option Z }.

Inductive EntryType : Type := text.

Record MemoryMapEntry : Type := mkEntry
  { ids      : JsSet.t;
    type     : EntryType;
    metadata : option Metadata }.

Definition MemoryMap : Type := JsMap.t MemoryMapEntry.

(** The [window] object as far as the plugin uses it. *)
Record ContentStorageWindow : Type := mkWindow
  { memoryMap : option MemoryMap }.

(** The global environment: [None] outside a browser (no [window]). *)
Definition Env : Type := option ContentStorageWindow.

(** How a call ends: normally, or with a thrown [TypeError]. *)
Inductive Completion : Type := Normal | Throws.

(* ================================================================== *)
(** ** The tracking store ([src/utils.ts]) *)

Definition getContentStorageWindow (env : Env) : option ContentStorageWindow :=
  env.

(** [initializeMemoryMap] (lines 54-63): the environment after the call and
    the returned handle. *)
Definition initializeMemoryMap (env : Env) : Env * option MemoryMap :=
  match getContentStorageWindow env with
  | None => (env, None)
  | Some win =>
      match memoryMap win with
      | None => (Some (mkWindow (Some [])), Some [])
      | Some m => (env, Some m)
      end
  end.

(** [getMemoryMap] (lines 134-137): [win?.memoryMap || null]; a [Map]
    object is always truthy. *)
Definition getMemoryMap (env : Env) : option MemoryMap :=
  match getContentStorageWindow env with
  | None => None
  | Some win => memoryMap win
  end.

(** Writing through the handle mutates the map that [window] holds. *)
Definition with_memoryMap (env : Env) (m : MemoryMap) : Env :=
  match env with
  | None => None
  | Some _ => Some (mkWindow (Some m))
  end.

(** [trackTranslation] (lines 221-259).  [now] is the reading of
    [Date.now()]; the console output under [debug] is not modelled. *)
Definition trackTranslation
    (translationValue translationKey : string)
    (namespace language : option string)
    (debug : bool) (now : Z) (env : Env) : Env :=
  match getMemoryMap env with
  | None => env
  | Some memoryMap =>
      let normalizedKey := normalizeKey translationKey namespace in
      let existingEntry := JsMap.get translationValue memoryMap in
      let idSet :=
        match existingEntry with
        | Some e => ids e
        | None => JsSet.empty
        end in
      let idSet := JsSet.add normalizedKey idSet in
      let entry :=
        {| ids := idSet;
           type := text;
           metadata := Some {| md_namespace := namespace;
                               md_language := language;
                               trackedAt := Some now |} |} in
      with_memoryMap env (JsMap.set translationValue entry memoryMap)
  end.

(** The elements of the array that [cleanupMemoryMap] sorts. *)
Record SortEntry : Type := mkSortEntry
  { key       : string;
    value     : MemoryMapEntry;
    timestamp : Z }.

(** [value.metadata?.trackedAt]: [None] is [undefined]. *)
Definition entry_trackedAt (v : MemoryMapEntry) : option Z :=
  match metadata v with
  | None => None
  | Some md => trackedAt md
  end.

(** [value.metadata?.trackedAt || 0]: a missing field and the falsy number
    [0] both give [0]. *)
Definition timestamp_of (v : MemoryMapEntry) : Z :=
  match entry_trackedAt v with
  | None => 0
  | Some t => if Z.eqb t 0 then 0 else t
  end.

Definition to_sort_entry (kv : string * MemoryMapEntry) : SortEntry :=
  {| key := fst kv; value := snd kv; timestamp := timestamp_of (snd kv) |}.

(** The comparator [(a, b) => a.timestamp - b.timestamp]. *)
Definition compare_entries (a b : SortEntry) : Z := timestamp a - timestamp b.

(** [Array.prototype.sort] is stable; with a consistent comparator its
    result is the stably sorted arrangement, computed here by insertion. *)
Fixpoint sort_insert (x : SortEntry) (l : list SortEntry) : list SortEntry :=
  match l with
  | [] => [x]
  | y :: l' =>
      if Z.leb (compare_entries x y) 0 then x :: l else y :: sort_insert x l'
  end.

Fixpoint sort_entries (l : list SortEntry) : list SortEntry :=
  match l with
  | [] => []
  | x :: l' => sort_insert x (sort_entries l')
  end.

(** The loop [for (i = 0; i < toRemove; i++) memoryMap.delete(entries[i].key)]
    with [n] iterations left.  Past the end of the array [entries[i]] is
    [undefined] and reading its [key] throws. *)
Fixpoint remove_loop (entries : list SortEntry) (i n : nat) (m : MemoryMap)
  : MemoryMap * Completion :=
  match n with
  | O => (m, Normal)
  | S n' =>
      match nth_error entries i with
      | None => (m, Throws)
      | Some e => remove_loop entries (S i) n' (JsMap.delete (key e) m)
      end
  end.

(** [cleanupMemoryMap] (lines 267-288). *)
Definition cleanupMemoryMap (maxSize : Z) (env : Env) : Env * Completion :=
  match getMemoryMap env with
  | None => (env, Normal)
  | Some memoryMap =>
      if Z.leb (JsMap.size memoryMap) maxSize then (env, Normal)
      else
        let entries := sort_entries (map to_sort_entry memoryMap) in
        let toRemove := JsMap.size memoryMap - maxSize in
        let '(m', c) := remove_loop entries 0 (Z.to_nat toRemove) memoryMap in
        (with_memoryMap env m', c)
  end.

(** Oldest first: the order the sort establishes. *)
Definition older_eq (a b : SortEntry) : Prop := timestamp a <= timestamp b.

(** The map after deleting the keys of [es], one after the other. *)
Definition delete_all (es : list SortEntry) (m : MemoryMap) : MemoryMap :=
  fold_left (fun acc e => JsMap.delete (key e) acc) es m.

(** The entries [cleanupMemoryMap] deletes, in the order it deletes them
    (all of them when [maxSize] is negative). *)
Definition evicted (maxSize : Z) (m : MemoryMap) : list SortEntry :=
  if Z.leb (JsMap.size m) maxSize then []
  else firstn (Z.to_nat (JsMap.size m - maxSize))
              (sort_entries (map to_sort_entry m)).

(** The specification's name for the eviction operation. *)
Definition evict (maxSize : Z) (env : Env) : Env := fst (cleanupMemoryMap maxSize env).

(** The entries of the store, [[]] when there is none. *)
Definition store_entries (env : Env) : MemoryMap :=
  match getMemoryMap env with
  | Some m => m
  | None => []
  end.

(** A small store for examples: three values tracked at times 30, 10 and
    20, in that insertion order. *)
Definition sample_entry (t : Z) : MemoryMapEntry :=
  {| ids := ["k"]; type := text;
     metadata := Some {| md_namespace := None;
                         md_language := None;
                         trackedAt := Some t |} |}.

Definition sample_store : MemoryMap :=
  [("c", sample_entry 30); ("a", sample_entry 10); ("b", sample_entry 20)].

Definition sample_env : Env := Some (mkWindow (Some sample_store)).

(** An entry written without metadata, and a store that holds it after an
    entry tracked at time 5. *)
Definition bare_entry : MemoryMapEntry :=
  {| ids := ["k"]; type := text; metadata := None |}.

Definition bare_store : MemoryMap := [("new", sample_entry 5); ("old", bare_entry)].

Definition bare_env : Env := Some (mkWindow (Some bare_store)).

(** An initialised store with no entries. *)
Definition empty_env : Env := fst (initializeMemoryMap (Some (mkWindow None))).

(* ================================================================== *)
(** ** Bulk flatten helper ([flattenTranslations], utils.ts 297-318) *)

(** The values a parsed translation payload can hold.  An object lists its
    own enumerable properties in the order [for ... in] visits them. *)
Local Set Warnings "-register-all".

Inductive JsValue : Type :=
| VString (s : string)
| VNumber (n : Z)
| VBool (b : bool)
| VNull
| VArray (items : list JsValue)
| VObject (props : list (string * JsValue)).

(** [prefix ? `${prefix}.${key}` : key]: the empty string is falsy. *)
Definition full_key (prefix key : string) : string :=
  match prefix with
  | EmptyString => key
  | _ => prefix ++ "." ++ key
  end.

(** One iteration of the loop body for a property whose full key is known:
    a string is emitted, a plain object is descended into, anything else
    (number, boolean, null, array) is passed over. *)
Fixpoint flatten_value (fullKey : string) (value : JsValue)
  : list (string * string) :=
  match value with
  | VString s => [(fullKey, s)]
  | VObject props =>
      (fix loop (ps : list (string * JsValue)) : list (string * string) :=
         match ps with
         | [] => []
         | (k, v) :: ps' => (flatten_value (full_key fullKey k) v ++ loop ps')%list
         end) props
  | _ => []
  end.

(** [flattenTranslations(obj, prefix)] for a plain object [obj]. *)
Definition flattenTranslations (obj : list (string * JsValue)) (prefix : string)
  : list (string * string) :=
  flat_map (fun kv => flatten_value (full_key prefix (fst kv)) (snd kv)) obj.

(** The specification's wording, for comparison: the string leaves in
    depth-first order, each with the path of keys leading to it. *)
Fixpoint string_leaves (path : list string) (value : JsValue)
  : list (list string * string) :=
  match value with
  | VString s => [(path, s)]
  | VObject props =>
      (fix loop (ps : list (string * JsValue)) : list (list string * string) :=
         match ps with
         | [] => []
         | (k, v) :: ps' => (string_leaves (path ++ [k]) v ++ loop ps')%list
         end) props
  | _ => []
  end.

Definition dot_join (path : list string) : string := String.concat "." path.

Definition flatten_spec (obj : list (string * JsValue)) : list (string * string) :=
  map (fun ps => (dot_join (fst ps), snd ps))
      (flat_map (fun kv => string_leaves [fst kv] (snd kv)) obj).

(* ================================================================== *)
(** ** Per-call resolver hook ([process], post-processor.ts 66-104) *)

(** Call-site interpolation values. *)
Definition Variables : Type := list (string * JsValue).

(** The [key] argument: one key or an array of fallback keys. *)
Inductive KeyArg : Type :=
| OneKey (k : string)
| KeyArray (ks : list string).

(** [Array.isArray(key) ? key[0] : key]; [None] is [undefined]. *)
Definition first_key (k : KeyArg) : option string :=
  match k with
  | OneKey s => Some s
  | KeyArray ks => hd_error ks
  end.

(** The first element of [s.split(':')]: everything before the first colon. *)
Fixpoint before_colon (s : string) : string :=
  match s with
  | EmptyString => EmptyString
  | String c s' => if Ascii.eqb c ":" then EmptyString else String c (before_colon s')
  end.

(** [a || b] on optional strings: [undefined] and [''] are falsy. *)
Definition or_string (a b : option string) : option string :=
  match a with
  | Some EmptyString | None => b
  | Some _ => a
  end.

(** The namespace the hook takes from the key (lines 80-85): the part
    before the first colon when the key holds one, [undefined] otherwise. *)
Definition key_namespace (translationKey : string) : option string :=
  if JsString.includes ":" translationKey
  then Some (before_colon translationKey)
  else None.

(** [import { ..., extractUserVariables } from './utils'] (line 3):
    [utils.ts] exports no such name, so the imported binding is
    [undefined]. *)
Definition extractUserVariables : option (option Variables -> option Variables) :=
  None.

(** [process].  The result pairs what the call returns ([None] when it
    throws a [TypeError]) with the environment afterwards.  [options] are
    the fields of the options object other than [lng] ([None]: there is no
    options object).  Reading [includes] of an [undefined] key throws, and
    so does the call of the [undefined] [extractUserVariables] (line 91);
    nothing is written before either.  Were the helper defined, its result
    would go to [trackTranslation] as a sixth argument, for which that
    function has no parameter. *)
Definition process
    (isLiveMode debug : bool) (value : string) (k : KeyArg)
    (options_lng translator_language : option string)
    (options : option Variables) (now : Z) (env : Env)
  : option string * Env :=
  if negb isLiveMode then (Some value, env)
  else
    match first_key k with
    | None => (None, env)
    | Some translationKey =>
        let namespace := key_namespace translationKey in
        let language := or_string options_lng translator_language in
        match extractUserVariables with
        | None => (None, env)
        | Some extract =>
            let variables := extract options in
            (Some value,
             trackTranslation value translationKey namespace language debug now env)
        end
    end.

(* ================================================================== *)
(** ** Bulk loader ([trackTranslations], plugin.ts 334-368) *)

(** The loop over the flattened payload.  [clock i] is the reading of
    [Date.now()] at the [i]-th iteration.  An empty value is skipped before
    [trackTranslation] is called; the namespace is not passed on. *)
Fixpoint track_loop (flat : list (string * string)) (language : option string)
    (debug : bool) (clock : nat -> Z) (i : nat) (env : Env) : Env :=
  match flat with
  | [] => env
  | (k, v) :: rest =>
      match v with
      | EmptyString => track_loop rest language debug clock (S i) env
      | _ =>
          track_loop rest language debug clock (S i)
            (trackTranslation v k None language debug (clock i) env)
      end
  end.

Definition trackTranslations (translations : list (string * JsValue))
    (namespace language : string) (debug : bool) (clock : nat -> Z) (env : Env)
  : Env :=
  match env with
  | None => env
  | Some _ =>
      track_loop (flattenTranslations translations "") (Some language)
        debug clock 0 env
  end.

(* ================================================================== *)
(** ** The store as the code leaves it *)

(** An entry as [trackTranslation] writes it: at least one key, and the
    key set free of duplicates. *)
Definition entry_ok (e : MemoryMapEntry) : Prop :=
  ids e <> [] /\ NoDup (ids e).

(** The state the operations keep: one entry per value, each well formed. *)
Definition store_ok (env : Env) : Prop :=
  JsMap.wf (store_entries env) /\
  Forall (fun kv => entry_ok (snd kv)) (store_entries env).

(** [a] stands before [b] in the list [l]. *)
Definition before {A : Type} (a b : A) (l : list A) : Prop :=
  exists l1 l2 l3, l = (l1 ++ a :: l2 ++ b :: l3)%list.

(* ================================================================== *)
(** ** Backend plugin ([src/plugin.ts]) *)

(** [shouldTrackNamespace] (lines 323-332): [None] is an absent
    [trackNamespaces] option. *)
Definition shouldTrackNamespace (trackNamespaces : option (list string))
    (namespace : string) : bool :=
  match trackNamespaces with
  | None => true
  | Some [] => true
  | Some l => existsb (String.eqb namespace) l
  end.

(** The continuation of [read] once the payload is there (lines 223-235),
    up to the call of [callback]: track, then clean up when
    [maxMemoryMapSize] is truthy ([None] is [undefined]; [0] is falsy).  A
    [Throws] completion is what the [catch] handler receives. *)
Definition on_translations_loaded
    (isLiveMode : bool) (trackNamespaces : option (list string))
    (maxMemoryMapSize : option Z)
    (translations : list (string * JsValue)) (namespace language : string)
    (debug : bool) (clock : nat -> Z) (env : Env) : Env * Completion :=
  if isLiveMode && shouldTrackNamespace trackNamespaces namespace then
    let env1 := trackTranslations translations namespace language debug clock env in
    match maxMemoryMapSize with
    | None => (env1, Normal)
    | Some n => if Z.eqb n 0 then (env1, Normal) else cleanupMemoryMap n env1
    end
  else (env, Normal).

(** The [postProcess] init option of i18next: absent, [false], one name or
    an array of names. *)
Inductive PostProcessOption : Type :=
| PPUndefined
| PPFalse
| PPName (name : string)
| PPArray (names : list string).

(** The part of [registerPostProcessor] (lines 185-207) that edits
    [initOptions.postProcess]; the result is the array it holds afterwards. *)
Definition registerPostProcessor (postProcess : PostProcessOption) : list string :=
  let postProcess :=
    match postProcess with
    | PPUndefined | PPFalse | PPName EmptyString => PPArray []
    | _ => postProcess
    end in
  let names :=
    match postProcess with
    | PPArray names => names
    | PPName name => [name]
    | PPUndefined | PPFalse => []
    end in
  if existsb (String.eqb "contentstorage") names then names
  else (names ++ ["contentstorage"])%list.

(* ================================================================== *)
(** ** Loading the editor script ([loadLiveEditorScript], utils.ts 69-129) *)

(** What a call's promise resolves to, and the attempts (script elements
    appended to the document head) the call caused, by attempt number. *)
Record ScriptLoad : Type := mkScriptLoad
  { resolved : bool;
    attempts : list Z }.

(** The inner [loadScript(attempt)].  [onload a] tells which handler the
    script element of attempt [a] fires: [true] for [onload], [false] for
    [onerror].  The delay before a retry does not change the outcome and
    is left out.  [None]: the fuel did not suffice. *)
Fixpoint loadScript (fuel : nat) (retries : Z) (onload : Z -> bool)
    (attempt : Z) : option ScriptLoad :=
  match fuel with
  | O => None
  | S fuel' =>
      if onload attempt then Some (mkScriptLoad true [attempt])
      else if Z.ltb attempt retries then
        match loadScript fuel' retries onload (attempt + 1) with
        | Some r => Some (mkScriptLoad (resolved r) (attempt :: attempts r))
        | None => None
        end
      else Some (mkScriptLoad false [attempt])
  end.

(** [loadLiveEditorScript].  The module variable [liveEditorReadyPromise]
    is modelled by the value its promise resolves to, [None] while no
    promise was made; the result pairs the outcome of this call with the
    module variable afterwards. *)
Definition loadLiveEditorScript (fuel : nat) (retries : Z) (onload : Z -> bool)
    (env : Env) (liveEditorReadyPromise : option bool)
  : option (ScriptLoad * option bool) :=
  match liveEditorReadyPromise with
  | Some r => Some (mkScriptLoad r [], liveEditorReadyPromise)
  | None =>
      match getContentStorageWindow env with
      | None => Some (mkScriptLoad false [], Some false)
      | Some _ =>
          match loadScript fuel retries onload 1 with
          | Some r => Some (r, Some (resolved r))
          | None => None
          end
      end
  end.

(* ================================================================== *)
(** * Properties *)

(** ** Key normaliser *)

Section Normalizer.

Local Open Scope nat_scope.

Local Abbreviation colon := (":"%char).

Lemma prefix_colon (c : ascii) (s : string) :
  prefix ":" (String c s) = Ascii.eqb c colon.
Proof.
  cbn [prefix]. destruct (ascii_dec ":" c) as [<- | Hne].
  - rewrite Ascii.eqb_refl. now destruct s.
  - symmetry. apply Ascii.eqb_neq. congruence.
Qed.

Lemma includes_colon (s : string) :
  JsString.includes ":" s = JsString.has_char colon s.
Proof.
  induction s as [| c s IH]; [reflexivity |].
  cbn [JsString.includes JsString.has_char].
  rewrite prefix_colon, IH. now destruct (Ascii.eqb c colon).
Qed.

Lemma replace_colon_cons (c : ascii) (s : string) :
  JsString.replace ":" "." (String c s) =
  if Ascii.eqb c colon then String "." s
  else String c (JsString.replace ":" "." s).
Proof.
  cbn [JsString.replace]. rewrite prefix_colon.
  now destruct (Ascii.eqb c colon).
Qed.

Lemma has_char_count (c : ascii) (s : string) :
  JsString.has_char c s = false <-> JsString.count c s = 0.
Proof.
  induction s as [| d s IH]; simpl; [tauto |].
  destruct (Ascii.eqb d c); simpl; [split; [discriminate | lia] | exact IH].
Qed.

Lemma replace_colon_fixed (s : string) :
  JsString.replace ":" "." s = s <-> JsString.has_char colon s = false.
Proof.
  induction s as [| c s IH]; [now split |].
  rewrite replace_colon_cons. cbn [JsString.has_char].
  destruct (Ascii.eqb c colon) eqn:E; simpl.
  - apply Ascii.eqb_eq in E. subst c.
    split; [intros H; inversion H | discriminate].
  - rewrite <- IH. split; [intros H; now injection H | now intros ->].
Qed.

(** The branch on [includes] is redundant: [replace] alone gives the
    result. *)
Lemma normalizeKey_replace (k : string) (ns : option string) :
  normalizeKey k ns = JsString.replace ":" "." k.
Proof.
  unfold normalizeKey. rewrite includes_colon.
  destruct (JsString.has_char colon k) eqn:E; [reflexivity |].
  symmetry. now apply replace_colon_fixed.
Qed.

Lemma has_char_app (c : ascii) (s1 s2 : string) :
  JsString.has_char c (s1 ++ s2) =
  JsString.has_char c s1 || JsString.has_char c s2.
Proof.
  induction s1 as [| d s1 IH]; simpl; [reflexivity |].
  now rewrite IH, orb_assoc.
Qed.

Lemma replace_first_colon (pre post : string) :
  JsString.has_char colon pre = false ->
  JsString.replace ":" "." (pre ++ ":" ++ post) = pre ++ "." ++ post.
Proof.
  induction pre as [| c pre IH]; intros H.
  - change ("" ++ ":" ++ post) with (String ":" post).
    now rewrite replace_colon_cons.
  - cbn [JsString.has_char] in H. apply orb_false_iff in H as [Hc Hpre].
    change (String c pre ++ ":" ++ post) with (String c (pre ++ ":" ++ post)).
    rewrite replace_colon_cons, Hc, IH by assumption. reflexivity.
Qed.

Lemma split_first_colon (k : string) :
  JsString.has_char colon k = true ->
  exists pre post,
    k = pre ++ ":" ++ post /\ JsString.has_char colon pre = false.
Proof.
  induction k as [| c k IH]; [discriminate |].
  cbn [JsString.has_char]. destruct (Ascii.eqb c colon) eqn:E; simpl.
  - intros _. apply Ascii.eqb_eq in E. subst c.
    exists "", k. now split.
  - intros H. destruct (IH H) as (pre & post & -> & Hpre).
    exists (String c pre), post. split; [reflexivity |].
    cbn [JsString.has_char]. now rewrite E, Hpre.
Qed.

Lemma replace_colon_length (s : string) :
  String.length (JsString.replace ":" "." s) = String.length s.
Proof.
  induction s as [| c s IH]; [reflexivity |].
  rewrite replace_colon_cons.
  destruct (Ascii.eqb c colon); simpl; [reflexivity | now rewrite IH].
Qed.

Lemma replace_colon_twice (s : string) :
  JsString.replace ":" "." (JsString.replace ":" "." s) =
  JsString.replace ":" "." s
  <-> JsString.count colon s <= 1.
Proof.
  induction s as [| c s IH]; [simpl; split; [lia | reflexivity] |].
  rewrite replace_colon_cons. cbn [JsString.count].
  destruct (Ascii.eqb c colon) eqn:E.
  - rewrite replace_colon_cons. change (Ascii.eqb "." colon) with false.
    cbv iota. split.
    + intros H. injection H as H.
      apply replace_colon_fixed, has_char_count in H. lia.
    + intros H. assert (H0 : JsString.count colon s = 0) by lia.
      apply has_char_count, replace_colon_fixed in H0. now rewrite H0.
  - rewrite replace_colon_cons, E. simpl.
    rewrite <- IH. split; [intros H; now injection H | now intros ->].
Qed.

End Normalizer.

(** C6. Colon-to-dot normalisation: a key that contains a colon splits at
    its first colon into [pre] (colon-free) and [post], and [normalize]
    returns [pre], a dot, and [post] untouched; a key without a colon is
    returned as it is. *)
Theorem normalize_first_colon_only (rawKey : string) :
  (JsString.has_char ":" rawKey = true /\
   exists pre post,
     rawKey = pre ++ ":" ++ post /\
     JsString.has_char ":" pre = false /\
     normalize rawKey = pre ++ "." ++ post)
  \/
  (JsString.has_char ":" rawKey = false /\ normalize rawKey = rawKey).
Proof.
  unfold normalize. rewrite normalizeKey_replace.
  destruct (JsString.has_char ":" rawKey) eqn:E; [left | right]; split; trivial.
  - destruct (split_first_colon rawKey E) as (pre & post & -> & Hpre).
    exists pre, post. repeat split; trivial.
    now apply replace_first_colon.
  - now apply replace_colon_fixed.
Qed.

Example normalize_common_welcome : normalize "common:welcome" = "common.welcome".
Proof. unfold normalize. rewrite normalizeKey_replace. now rewrite !replace_colon_cons. Qed.

Example normalize_a_b_c : normalize "a:b:c" = "a.b:c".
Proof. unfold normalize. rewrite normalizeKey_replace. now rewrite !replace_colon_cons. Qed.

(** C2, as stated, fails: the key ["a:b:c"] normalises to ["a.b:c"], which
    still holds a colon, and normalising again gives ["a.b.c"]. *)
Lemma normalize_not_idempotent :
  normalize (normalize "a:b:c") <> normalize "a:b:c".
Proof.
  rewrite normalize_a_b_c. unfold normalize. rewrite normalizeKey_replace.
  rewrite !replace_colon_cons. cbn. discriminate.
Qed.

(** C2, amended. Normalising twice gives the same key as normalising once
    exactly for the keys that hold at most one colon. *)
Theorem normalize_idempotent_iff (k : string) :
  normalize (normalize k) = normalize k <-> (JsString.count ":" k <= 1)%nat.
Proof.
  unfold normalize. rewrite !normalizeKey_replace. apply replace_colon_twice.
Qed.

(** C8. The result of [normalizeKey] does not depend on the namespace
    argument, and the result is as long as the key: nothing is prepended. *)
Theorem normalizeKey_ignores_namespace (k : string) (ns1 ns2 : option string) :
  normalizeKey k ns1 = normalizeKey k ns2 /\
  String.length (normalizeKey k ns1) = String.length k.
Proof.
  split; [reflexivity |].
  rewrite normalizeKey_replace. apply replace_colon_length.
Qed.

Example normalizeKey_welcome_common :
  normalizeKey "welcome" (Some "common") = "welcome".
Proof. rewrite normalizeKey_replace. now rewrite !replace_colon_cons. Qed.

(** ** Base-key extraction *)

Section BaseKey.

Local Abbreviation underscore := ("_"%char).

Lemma plural_match_here_spec (s : string) :
  plural_match_here s = true <->
  exists w, In w plural_suffixes /\ s = "_" ++ w.
Proof.
  unfold plural_match_here. rewrite existsb_exists.
  split; intros (w & Hw & H); exists w; split; trivial;
    now apply String.eqb_eq.
Qed.

Lemma plural_suffix_no_underscore (w : string) :
  In w plural_suffixes -> JsString.has_char underscore w = false.
Proof.
  unfold plural_suffixes. simpl.
  intros H. repeat (destruct H as [<- | H]; [reflexivity |]). contradiction.
Qed.

Lemma no_match_inside (c : ascii) (base w : string) :
  In w plural_suffixes ->
  plural_match_here (String c (base ++ "_" ++ w)) = false.
Proof.
  intros Hw. destruct (plural_match_here _) eqn:E; [| reflexivity].
  apply plural_match_here_spec in E as (w' & Hw' & E).
  injection E as _ E.
  apply plural_suffix_no_underscore in Hw'.
  rewrite <- E, has_char_app in Hw'. cbn in Hw'.
  now rewrite orb_true_r in Hw'.
Qed.

Lemma strip_plural_suffix (base w : string) :
  In w plural_suffixes -> strip_plural (base ++ "_" ++ w) = base.
Proof.
  intros Hw. induction base as [| c base IH].
  - change ("" ++ "_" ++ w) with ("_" ++ w).
    assert (E : plural_match_here ("_" ++ w) = true)
      by (apply plural_match_here_spec; now exists w).
    destruct w; cbn [strip_plural append]; cbn [append] in E; now rewrite E.
  - change (String c base ++ "_" ++ w) with (String c (base ++ "_" ++ w)).
    cbn [strip_plural]. rewrite no_match_inside by assumption.
    now rewrite IH.
Qed.

Lemma strip_plural_other (k : string) :
  (forall base w, In w plural_suffixes -> k <> base ++ "_" ++ w) ->
  strip_plural k = k.
Proof.
  induction k as [| c k IH]; intros H; [reflexivity |].
  cbn [strip_plural].
  destruct (plural_match_here (String c k)) eqn:E.
  - apply plural_match_here_spec in E as (w & Hw & E).
    now destruct (H "" w Hw).
  - rewrite IH; [reflexivity |].
    intros base w Hw ->. now apply (H (String c base) w Hw).
Qed.

End BaseKey.

(** C9. A key that ends in an underscore followed by one of the seven
    plural words loses that suffix; any other key is returned as it is. *)
Theorem extractBaseKey_plural_suffix :
  (forall base w, In w plural_suffixes ->
     extractBaseKey (base ++ "_" ++ w) = base) /\
  (forall k, (forall base w, In w plural_suffixes -> k <> base ++ "_" ++ w) ->
     extractBaseKey k = k) /\
  extractBaseKey "hello_world" = "hello_world".
Proof.
  unfold extractBaseKey. split; [| split].
  - apply strip_plural_suffix.
  - apply strip_plural_other.
  - reflexivity.
Qed.

Lemma extractBaseKey_plural_suffix_witness :
  In "plural" plural_suffixes /\ extractBaseKey ("items" ++ "_" ++ "plural") = "items".
Proof.
  split.
  - unfold plural_suffixes. simpl. tauto.
  - apply (proj1 extractBaseKey_plural_suffix "items" "plural").
    unfold plural_suffixes. simpl. tauto.
Defined.

(** ** Maps and sets *)

Section MapFacts.

Context {V : Type}.
Implicit Types (m : JsMap.t V) (k : string) (v : V).

Lemma get_In m k v : JsMap.get k m = Some v -> In (k, v) m.
Proof.
  induction m as [| [k' v'] m IH]; simpl; [discriminate |].
  destruct (String.eqb_spec k k') as [-> | Hne].
  - intros [= ->]. now left.
  - intros H. right. now apply IH.
Qed.

Lemma get_None m k : JsMap.get k m = None <-> ~ In k (JsMap.keys m).
Proof.
  induction m as [| [k' v'] m IH]; simpl; [tauto |].
  destruct (String.eqb_spec k k') as [-> | Hne].
  - split; [discriminate | intros H; destruct H; now left].
  - rewrite IH. split; [intros H [E | E]; congruence | tauto].
Qed.

Lemma In_get m k v : JsMap.wf m -> In (k, v) m -> JsMap.get k m = Some v.
Proof.
  unfold JsMap.wf, JsMap.keys.
  induction m as [| [k' v'] m IH]; simpl; [tauto |].
  intros Hwf [E | Hin]; inversion Hwf as [| ? ? Hnotin Hwf']; subst.
  - injection E as -> ->. now rewrite String.eqb_refl.
  - destruct (String.eqb_spec k k') as [-> | Hne]; [| now apply IH].
    destruct Hnotin. change k' with (fst (k', v)). now apply in_map.
Qed.

Lemma get_set_same m k v : JsMap.get k (JsMap.set k v m) = Some v.
Proof.
  induction m as [| [k' v'] m IH]; simpl.
  - now rewrite String.eqb_refl.
  - destruct (String.eqb_spec k k') as [-> | Hne]; simpl.
    + now rewrite String.eqb_refl.
    + destruct (String.eqb_spec k k'); [contradiction | exact IH].
Qed.

Lemma get_set_other m k k' v :
  k' <> k -> JsMap.get k' (JsMap.set k v m) = JsMap.get k' m.
Proof.
  intros Hne. induction m as [| [k0 v0] m IH]; simpl.
  - destruct (String.eqb_spec k' k); [contradiction | reflexivity].
  - destruct (String.eqb_spec k k0) as [-> | Hne0]; simpl.
    + destruct (String.eqb_spec k' k0); [contradiction | reflexivity].
    + now rewrite IH.
Qed.

Lemma keys_set m k v :
  JsMap.keys (JsMap.set k v m) =
  match JsMap.get k m with
  | Some _ => JsMap.keys m
  | None => (JsMap.keys m ++ [k])%list
  end.
Proof.
  unfold JsMap.keys. induction m as [| [k' v'] m IH]; simpl; [reflexivity |].
  destruct (String.eqb_spec k k') as [-> | Hne]; simpl; [reflexivity |].
  rewrite IH. now destruct (JsMap.get k m).
Qed.

Lemma set_wf m k v : JsMap.wf m -> JsMap.wf (JsMap.set k v m).
Proof.
  unfold JsMap.wf. intros Hwf. rewrite keys_set.
  destruct (JsMap.get k m) eqn:E; [assumption |].
  apply get_None in E.
  apply (Permutation_NoDup (Permutation_cons_append _ k)).
  now constructor.
Qed.

Lemma In_delete m k k' v :
  JsMap.wf m ->
  In (k', v) (JsMap.delete k m) <-> In (k', v) m /\ k' <> k.
Proof.
  unfold JsMap.wf, JsMap.keys.
  induction m as [| [k0 v0] m IH]; simpl; [tauto |].
  intros Hwf. inversion Hwf as [| ? ? Hnotin Hwf']; subst.
  destruct (String.eqb_spec k k0) as [-> | Hne]; simpl.
  - split.
    + intros Hin. split; [now right |].
      intros ->. apply Hnotin. change k0 with (fst (k0, v)). now apply in_map.
    + intros [[E | Hin] Hk]; [congruence | assumption].
  - rewrite (IH Hwf'). split.
    + intros [E | [Hin Hk]]; [| tauto].
      injection E as -> ->. split; [now left | congruence].
    + intros [[E | Hin] Hk]; tauto.
Qed.

Lemma delete_incl m k kv : In kv (JsMap.delete k m) -> In kv m.
Proof.
  induction m as [| [k0 v0] m IH]; simpl; [tauto |].
  destruct (String.eqb k k0); simpl; [tauto |].
  intros [E | Hin]; [now left | right; now apply IH].
Qed.

Lemma keys_delete_incl m k x :
  In x (JsMap.keys (JsMap.delete k m)) -> In x (JsMap.keys m).
Proof.
  unfold JsMap.keys. rewrite !in_map_iff.
  intros (kv & E & Hin). exists kv. split; [assumption |].
  now apply delete_incl in Hin.
Qed.

Lemma delete_wf m k : JsMap.wf m -> JsMap.wf (JsMap.delete k m).
Proof.
  unfold JsMap.wf.
  induction m as [| [k0 v0] m IH]; simpl; [trivial |].
  intros Hwf. inversion Hwf as [| ? ? Hnotin Hwf']; subst.
  destruct (String.eqb k k0); simpl; [assumption |].
  constructor; [| now apply IH].
  intros Hin. apply Hnotin. now apply keys_delete_incl in Hin.
Qed.

End MapFacts.

Lemma set_has_add (x y : string) (s : JsSet.t) :
  JsSet.has x (JsSet.add y s) = (String.eqb x y || JsSet.has x s)%bool.
Proof.
  unfold JsSet.add, JsSet.has.
  destruct (existsb (String.eqb y) s) eqn:E.
  - destruct (String.eqb_spec x y) as [-> | Hne]; [now rewrite E | reflexivity].
  - rewrite existsb_app. simpl. rewrite orb_false_r. apply orb_comm.
Qed.

(** ** Tracking *)

Lemma getMemoryMap_with env m m' :
  getMemoryMap env = Some m -> getMemoryMap (with_memoryMap env m') = Some m'.
Proof. destruct env as [win |]; [reflexivity | discriminate]. Qed.

(** What a call on an initialised store writes. *)
Lemma getMemoryMap_track env m v k ns l d t :
  getMemoryMap env = Some m ->
  getMemoryMap (trackTranslation v k ns l d t env) =
  Some (JsMap.set v
          {| ids := JsSet.add (normalize k)
                      match JsMap.get v m with
                      | Some e => ids e
                      | None => JsSet.empty
                      end;
             type := text;
             metadata := Some {| md_namespace := ns;
                                 md_language := l;
                                 trackedAt := Some t |} |} m).
Proof.
  intros H. unfold trackTranslation. rewrite H.
  now apply getMemoryMap_with with (m := m).
Qed.

(** On a store that was never initialised the call changes nothing. *)
Lemma track_uninitialized env v k ns l d t :
  getMemoryMap env = None -> trackTranslation v k ns l d t env = env.
Proof. intros H. unfold trackTranslation. now rewrite H. Qed.

Lemma store_entries_get env m : getMemoryMap env = Some m -> store_entries env = m.
Proof. intros H. unfold store_entries. now rewrite H. Qed.

(** Tracking keeps the keys of the map distinct. *)
Lemma track_wf env v k ns l d t :
  JsMap.wf (store_entries env) ->
  JsMap.wf (store_entries (trackTranslation v k ns l d t env)).
Proof.
  intros Hwf. destruct (getMemoryMap env) as [m |] eqn:E.
  - rewrite (store_entries_get _ _ (getMemoryMap_track env m v k ns l d t E)).
    apply set_wf. now rewrite (store_entries_get _ _ E) in Hwf.
  - now rewrite track_uninitialized.
Qed.

(** Tracking one value leaves the entries of all other values alone. *)
Lemma track_other_value env v v' k ns l d t :
  v' <> v ->
  JsMap.get v' (store_entries (trackTranslation v k ns l d t env)) =
  JsMap.get v' (store_entries env).
Proof.
  intros Hne. destruct (getMemoryMap env) as [m |] eqn:E.
  - rewrite (store_entries_get _ _ (getMemoryMap_track env m v k ns l d t E)).
    rewrite (store_entries_get _ _ E). now apply get_set_other.
  - now rewrite track_uninitialized.
Qed.

(** The key set of an entry only grows under further calls for its value. *)
Lemma track_keys_grow env m v e k ns l d t :
  getMemoryMap env = Some m ->
  JsMap.get v m = Some e ->
  exists e',
    JsMap.get v (store_entries (trackTranslation v k ns l d t env)) = Some e' /\
    ids e' = JsSet.add (normalize k) (ids e) /\
    forall x, JsSet.has x (ids e) = true -> JsSet.has x (ids e') = true.
Proof.
  intros Hm He.
  rewrite (store_entries_get _ _ (getMemoryMap_track env m v k ns l d t Hm)).
  rewrite get_set_same, He. eexists. split; [reflexivity |]. split; [reflexivity |].
  intros x Hx. cbn [ids]. rewrite set_has_add, Hx. apply orb_true_r.
Qed.

(** The first call for a value creates its entry with the one key. *)
Lemma track_first env m v k ns l d t :
  getMemoryMap env = Some m ->
  JsMap.get v m = None ->
  exists e',
    JsMap.get v (store_entries (trackTranslation v k ns l d t env)) = Some e' /\
    ids e' = [normalize k].
Proof.
  intros Hm He.
  rewrite (store_entries_get _ _ (getMemoryMap_track env m v k ns l d t Hm)).
  rewrite get_set_same, He. eexists. split; reflexivity.
Qed.

Lemma initialized_after_track env m v k ns l d t :
  getMemoryMap env = Some m ->
  exists m', getMemoryMap (trackTranslation v k ns l d t env) = Some m'.
Proof. intros H. eexists. apply getMemoryMap_track. exact H. Qed.

Lemma get_Some_count {V : Type} (m : JsMap.t V) (k : string) (v : V) :
  JsMap.wf m -> JsMap.get k m = Some v ->
  count_occ string_dec (JsMap.keys m) k = 1%nat.
Proof.
  intros Hwf Hget. apply (proj1 (NoDup_count_occ' string_dec _) Hwf).
  apply get_In in Hget. unfold JsMap.keys.
  change k with (fst (k, v)). now apply in_map.
Qed.

(** ** Eviction *)

Section Eviction.

Local Open Scope nat_scope.

Lemma sort_insert_perm x l : Permutation (sort_insert x l) (x :: l).
Proof.
  induction l as [| y l IH]; simpl; [reflexivity |].
  destruct (Z.leb (compare_entries x y) 0); [reflexivity |].
  rewrite IH. apply perm_swap.
Qed.

Lemma sort_entries_perm l : Permutation (sort_entries l) l.
Proof.
  induction l as [| x l IH]; simpl; [reflexivity |].
  rewrite sort_insert_perm. now apply perm_skip.
Qed.

Lemma sort_insert_sorted x l :
  StronglySorted older_eq l -> StronglySorted older_eq (sort_insert x l).
Proof.
  induction 1 as [| y l Hs IH Hy]; simpl.
  - repeat constructor.
  - unfold compare_entries.
    destruct (Z.leb_spec (timestamp x - timestamp y) 0) as [Hle | Hgt].
    + constructor; [now constructor |].
      constructor; [unfold older_eq; lia |].
      eapply Forall_impl; [| exact Hy]. unfold older_eq. intros; lia.
    + constructor; [exact IH |].
      apply (Permutation_Forall (Permutation_sym (sort_insert_perm x l))).
      constructor; [unfold older_eq; lia | exact Hy].
Qed.

Lemma sort_entries_sorted l : StronglySorted older_eq (sort_entries l).
Proof.
  induction l as [| x l IH]; simpl; [constructor | now apply sort_insert_sorted].
Qed.

Lemma sorted_app_le (l1 l2 : list SortEntry) a b :
  StronglySorted older_eq (l1 ++ l2) -> In a l1 -> In b l2 -> older_eq a b.
Proof.
  induction l1 as [| x l1 IH]; simpl; [tauto |].
  intros Hs [-> | Ha] Hb; apply StronglySorted_inv in Hs as [Hs Hall].
  - rewrite Forall_forall in Hall. apply Hall, in_or_app. now right.
  - now apply IH.
Qed.

Lemma NoDup_app_disjoint {A : Type} (l1 l2 : list A) x :
  NoDup (l1 ++ l2) -> In x l1 -> In x l2 -> False.
Proof.
  induction l1 as [| y l1 IH]; simpl; [tauto |].
  intros Hnd [-> | H1] H2; inversion Hnd as [| ? ? Hnotin Hnd']; subst.
  - apply Hnotin, in_or_app. now right.
  - now apply IH.
Qed.

Lemma skipn_nth_error {A : Type} (l : list A) i x :
  nth_error l i = Some x -> skipn i l = x :: skipn (S i) l.
Proof.
  revert l. induction i as [| i IH]; intros [| y l]; simpl; try discriminate.
  - now intros [= ->].
  - intros H. now rewrite (IH l H).
Qed.

Lemma remove_loop_map entries n : forall i m,
  fst (remove_loop entries i n m) =
  delete_all (firstn n (skipn i entries)) m.
Proof.
  induction n as [| n IH]; intros i m; simpl; [reflexivity |].
  destruct (nth_error entries i) as [e |] eqn:E.
  - rewrite IH, (skipn_nth_error _ _ _ E). reflexivity.
  - apply nth_error_None in E. now rewrite (skipn_all2 _ E).
Qed.

Lemma remove_loop_normal entries n : forall i m,
  i + n <= List.length entries -> snd (remove_loop entries i n m) = Normal.
Proof.
  induction n as [| n IH]; intros i m Hle; simpl; [reflexivity |].
  destruct (nth_error entries i) as [e |] eqn:E.
  - apply IH. lia.
  - apply nth_error_None in E. lia.
Qed.

Lemma delete_all_wf es : forall m, JsMap.wf m -> JsMap.wf (delete_all es m).
Proof.
  induction es as [| e es IH]; intros m Hwf; simpl; [assumption |].
  apply IH. now apply delete_wf.
Qed.

Lemma In_delete_all es : forall (m : MemoryMap) k v,
  JsMap.wf m ->
  In (k, v) (delete_all es m) <-> In (k, v) m /\ ~ In k (map key es).
Proof.
  induction es as [| e es IH]; intros m k v Hwf; simpl; [tauto |].
  rewrite IH by now apply delete_wf.
  rewrite In_delete by assumption.
  split; [intros [[H1 H2] H3] | intros [H1 H2]]; repeat split; auto.
  intros [E | H]; [congruence | contradiction].
Qed.

Lemma keys_delete (m : MemoryMap) k k' :
  JsMap.wf m ->
  In k' (JsMap.keys (JsMap.delete k m)) <-> In k' (JsMap.keys m) /\ k' <> k.
Proof.
  intros Hwf. unfold JsMap.keys. rewrite !in_map_iff. split.
  - intros ([k0 v0] & E & Hin). simpl in E. subst k0.
    apply In_delete in Hin as [Hin Hne]; [| assumption].
    split; [now exists (k', v0) | assumption].
  - intros [([k0 v0] & E & Hin) Hne]. simpl in E. subst k0.
    exists (k', v0). split; [reflexivity |]. now apply In_delete.
Qed.

Lemma length_delete (m : MemoryMap) k :
  In k (JsMap.keys m) -> S (List.length (JsMap.delete k m)) = List.length m.
Proof.
  induction m as [| [k0 v0] m IH]; simpl; [tauto |].
  destruct (String.eqb_spec k k0) as [-> | Hne]; [reflexivity |].
  intros [E | Hin]; [congruence |]. simpl. now rewrite IH.
Qed.

Lemma length_delete_all es : forall m : MemoryMap,
  JsMap.wf m -> NoDup (map key es) ->
  (forall k, In k (map key es) -> In k (JsMap.keys m)) ->
  List.length (delete_all es m) + List.length es = List.length m.
Proof.
  induction es as [| e es IH]; intros m Hwf Hnd Hin; simpl; [lia |].
  simpl in Hnd. inversion Hnd as [| ? ? Hnotin Hnd']; subst.
  rewrite <- (length_delete m (key e)) by (apply Hin; now left).
  rewrite <- (IH (JsMap.delete (key e) m)); [lia | now apply delete_wf | assumption |].
  intros k Hk. apply keys_delete; [assumption |].
  split; [apply Hin; now right | congruence].
Qed.

End Eviction.

Section EvictionSpec.

Local Open Scope nat_scope.

Variable m : MemoryMap.
Hypothesis m_wf : JsMap.wf m.

Let sorted := sort_entries (map to_sort_entry m).

Lemma sorted_keys_perm : Permutation (map key sorted) (JsMap.keys m).
Proof.
  unfold sorted. rewrite (Permutation_map key (sort_entries_perm _)).
  rewrite map_map. reflexivity.
Qed.

Lemma sorted_keys_NoDup : NoDup (map key sorted).
Proof.
  apply (Permutation_NoDup (Permutation_sym sorted_keys_perm)). exact m_wf.
Qed.

Lemma In_sorted kv : In (to_sort_entry kv) sorted <-> In kv m.
Proof.
  unfold sorted. split; intros H.
  - apply (Permutation_in _ (sort_entries_perm _)) in H.
    apply in_map_iff in H as ([k v] & E & Hin).
    destruct kv as [k' v']. unfold to_sort_entry in E. simpl in E.
    now injection E as -> ->.
  - apply (Permutation_in _ (Permutation_sym (sort_entries_perm _))).
    now apply in_map.
Qed.

Lemma length_sorted : List.length sorted = List.length m.
Proof.
  unfold sorted.
  now rewrite (Permutation_length (sort_entries_perm _)), length_map.
Qed.

(** What stays is what the sort placed behind the deleted front. *)
Lemma kept_iff n k v :
  In (k, v) (delete_all (firstn n sorted) m) <->
  In (to_sort_entry (k, v)) (skipn n sorted).
Proof.
  rewrite In_delete_all by exact m_wf.
  pose proof sorted_keys_NoDup as Hnd.
  rewrite <- (firstn_skipn n sorted), map_app in Hnd.
  split.
  - intros [Hin Hk]. apply In_sorted in Hin.
    rewrite <- (firstn_skipn n sorted) in Hin.
    apply in_app_or in Hin as [Hin | Hin]; [| assumption].
    destruct Hk. change k with (key (to_sort_entry (k, v))). now apply in_map.
  - intros Hin. split.
    + apply In_sorted. rewrite <- (firstn_skipn n sorted).
      apply in_or_app. now right.
    + intros Hk. apply (NoDup_app_disjoint _ _ k Hnd Hk).
      change k with (key (to_sort_entry (k, v))). now apply in_map.
Qed.

(** What goes is the front of the sorted array. *)
Lemma removed_front n k v :
  In (k, v) m -> ~ In (k, v) (delete_all (firstn n sorted) m) ->
  In (to_sort_entry (k, v)) (firstn n sorted).
Proof.
  intros Hin Hout. apply In_sorted in Hin.
  rewrite <- (firstn_skipn n sorted) in Hin.
  apply in_app_or in Hin as [Hin | Hin]; [assumption |].
  destruct Hout. now apply kept_iff.
Qed.

(** No kept entry is older than a removed one. *)
Lemma removed_older_eq n k v k' v' :
  In (k, v) m -> ~ In (k, v) (delete_all (firstn n sorted) m) ->
  In (k', v') (delete_all (firstn n sorted) m) ->
  (timestamp_of v <= timestamp_of v')%Z.
Proof.
  intros Hin Hout Hkept.
  apply (removed_front n) in Hout; [| assumption].
  apply kept_iff in Hkept.
  assert (Hs : StronglySorted older_eq (firstn n sorted ++ skipn n sorted)).
  { rewrite firstn_skipn. apply sort_entries_sorted. }
  exact (sorted_app_le _ _ _ _ Hs Hout Hkept).
Qed.

Lemma length_after n :
  List.length (delete_all (firstn n sorted) m) + Nat.min n (List.length m) =
  List.length m.
Proof.
  rewrite <- length_sorted at 1. rewrite <- length_firstn.
  apply length_delete_all; [exact m_wf | |].
  - pose proof sorted_keys_NoDup as Hnd.
    rewrite <- (firstn_skipn n sorted), map_app in Hnd.
    now apply NoDup_app_remove_r in Hnd.
  - intros k Hk. apply (Permutation_in _ sorted_keys_perm).
    rewrite <- (firstn_skipn n sorted), map_app. apply in_or_app. now left.
Qed.

End EvictionSpec.

Lemma store_entries_with env m m' :
  getMemoryMap env = Some m -> store_entries (with_memoryMap env m') = m'.
Proof. intros H. apply store_entries_get. now apply getMemoryMap_with with (m := m). Qed.

(** The store after eviction is the store without the evicted entries. *)
Lemma evict_entries env m maxSize :
  getMemoryMap env = Some m ->
  store_entries (evict maxSize env) = delete_all (evicted maxSize m) m.
Proof.
  intros H. unfold evict, cleanupMemoryMap, evicted. rewrite H.
  destruct (Z.leb (JsMap.size m) maxSize).
  - simpl. now apply store_entries_get.
  - pose proof (remove_loop_map (sort_entries (map to_sort_entry m))
                  (Z.to_nat (JsMap.size m - maxSize)) 0 m) as Hloop.
    destruct (remove_loop _ 0 _ m) as [m' c]. simpl in *.
    now rewrite (store_entries_with env m m' H).
Qed.

Lemma evict_uninitialized env maxSize :
  getMemoryMap env = None -> cleanupMemoryMap maxSize env = (env, Normal).
Proof. intros H. unfold cleanupMemoryMap. now rewrite H. Qed.

(** With a non-negative bound the loop stays inside the array. *)
Lemma cleanup_normal env maxSize :
  0 <= maxSize -> snd (cleanupMemoryMap maxSize env) = Normal.
Proof.
  intros Hmax. unfold cleanupMemoryMap.
  destruct (getMemoryMap env) as [m |]; [| reflexivity].
  destruct (Z.leb (JsMap.size m) maxSize); [reflexivity |].
  pose proof (remove_loop_normal (sort_entries (map to_sort_entry m))
                (Z.to_nat (JsMap.size m - maxSize)) 0 m) as Hloop.
  destruct (remove_loop _ 0 _ m) as [m' c]. simpl in *. apply Hloop.
  rewrite length_sorted. unfold JsMap.size. lia.
Qed.

(** Eviction keeps the keys of the map distinct and adds nothing. *)
Lemma evict_wf env maxSize :
  JsMap.wf (store_entries env) -> JsMap.wf (store_entries (evict maxSize env)).
Proof.
  intros Hwf. destruct (getMemoryMap env) as [m |] eqn:E.
  - rewrite (evict_entries env m maxSize E). apply delete_all_wf.
    now rewrite (store_entries_get _ _ E) in Hwf.
  - unfold evict. now rewrite evict_uninitialized.
Qed.

Lemma evict_incl env maxSize k v :
  JsMap.wf (store_entries env) ->
  In (k, v) (store_entries (evict maxSize env)) -> In (k, v) (store_entries env).
Proof.
  intros Hwf. destruct (getMemoryMap env) as [m |] eqn:E.
  - rewrite (evict_entries env m maxSize E).
    rewrite (store_entries_get _ _ E) in *.
    intros H. now apply In_delete_all in H.
  - unfold evict. now rewrite evict_uninitialized.
Qed.

(** An entry that survives eviction is the entry as it was. *)
Lemma evict_entry_unchanged env maxSize v e :
  JsMap.wf (store_entries env) ->
  JsMap.get v (store_entries (evict maxSize env)) = Some e ->
  JsMap.get v (store_entries env) = Some e.
Proof.
  intros Hwf H. apply In_get; [assumption |].
  apply (evict_incl env maxSize); [assumption |]. now apply get_In.
Qed.

Lemma NoDup_map_eq {A B : Type} (f : A -> B) (l : list A) a b :
  NoDup (map f l) -> In a l -> In b l -> f a = f b -> a = b.
Proof.
  induction l as [| x l IH]; simpl; [tauto |].
  intros Hnd Ha Hb E. inversion Hnd as [| ? ? Hnotin Hnd']; subst.
  destruct Ha as [-> | Ha], Hb as [-> | Hb]; trivial.
  - destruct Hnotin. rewrite E. now apply in_map.
  - destruct Hnotin. rewrite <- E. now apply in_map.
  - now apply IH.
Qed.

Lemma timestamp_of_trackedAt e t :
  entry_trackedAt e = Some t -> timestamp_of e = t.
Proof.
  unfold timestamp_of. intros ->.
  destruct (Z.eqb_spec t 0); congruence.
Qed.

Lemma timestamp_of_missing e : entry_trackedAt e = None -> timestamp_of e = 0.
Proof. unfold timestamp_of. now intros ->. Qed.

Lemma sorted_nth_error (l : list SortEntry) : forall i j a b,
  StronglySorted older_eq l -> (i < j)%nat ->
  nth_error l i = Some a -> nth_error l j = Some b -> older_eq a b.
Proof.
  induction l as [| x l IH]; intros i j a b Hs Hij Ha Hb.
  - now destruct i.
  - apply StronglySorted_inv in Hs as [Hs Hall].
    destruct j as [| j]; [lia |]. simpl in Hb.
    destruct i as [| i]; simpl in Ha.
    + injection Ha as ->. rewrite Forall_forall in Hall.
      apply Hall. now apply nth_error_In in Hb.
    + apply (IH i j); trivial. lia.
Qed.

(** C1. Let the sort keys of the entries (their [trackedAt], read as [0]
    when missing) be pairwise distinct and [maxSize] be non-negative.
    Eviction ends normally and removes nothing when the entry count is at
    most [maxSize]; otherwise it leaves exactly [maxSize] of the entries,
    so it removes [count - maxSize], and every entry it keeps carries a
    larger timestamp than every entry it removes. *)
Theorem evict_keeps_most_recent env m maxSize :
  getMemoryMap env = Some m ->
  JsMap.wf m ->
  NoDup (map (fun kv => timestamp_of (snd kv)) m) ->
  0 <= maxSize ->
  let r := store_entries (evict maxSize env) in
  snd (cleanupMemoryMap maxSize env) = Normal /\
  (forall kv, In kv r -> In kv m) /\
  (JsMap.size m <= maxSize -> r = m) /\
  (maxSize < JsMap.size m ->
     JsMap.size r = maxSize /\
     JsMap.size m - JsMap.size r = JsMap.size m - maxSize /\
     forall kept gone,
       In kept r -> In gone m -> ~ In gone r ->
       timestamp_of (snd gone) < timestamp_of (snd kept)).
Proof.
  intros Hm Hwf Hdistinct Hmax r.
  assert (Hr : r = delete_all (evicted maxSize m) m) by now apply evict_entries.
  split; [now apply cleanup_normal |].
  split; [| split].
  - intros [k v] Hin. rewrite Hr in Hin. now apply In_delete_all in Hin.
  - intros Hle. rewrite Hr. unfold evicted.
    now destruct (Z.leb_spec (JsMap.size m) maxSize); [| lia].
  - intros Hlt. unfold evicted in Hr.
    destruct (Z.leb_spec (JsMap.size m) maxSize) as [Hle | _]; [lia |].
    pose proof (length_after m Hwf (Z.to_nat (JsMap.size m - maxSize))) as Hlen.
    rewrite <- Hr in Hlen.
    assert (Hsize : JsMap.size r = maxSize) by (unfold JsMap.size in *; lia).
    split; [exact Hsize |]. split; [lia |].
    intros [k' v'] [k v] Hkept Hin Hgone. simpl.
    assert (Hle : timestamp_of v <= timestamp_of v').
    { rewrite Hr in Hkept, Hgone.
      exact (removed_older_eq m Hwf _ k v k' v' Hin Hgone Hkept). }
    assert (Hne : timestamp_of v <> timestamp_of v').
    { intros E. apply Hgone.
      assert (Hin' : In (k', v') m)
        by (rewrite Hr in Hkept; now apply In_delete_all in Hkept).
      now rewrite (NoDup_map_eq (fun kv => timestamp_of (snd kv)) m
                     (k, v) (k', v') Hdistinct Hin Hin' E). }
    lia.
Qed.

(** Three entries tracked at times 30, 10 and 20, evicted down to two. *)
Lemma evict_keeps_most_recent_witness :
  JsMap.size (store_entries (evict 2 sample_env)) = 2 /\
  store_entries (evict 2 sample_env) =
    [("c", sample_entry 30); ("b", sample_entry 20)].
Proof.
  assert (Hwf : JsMap.wf sample_store).
  { unfold JsMap.wf. simpl.
    repeat (constructor; [simpl; intuition discriminate |]). constructor. }
  assert (Hnd : NoDup (map (fun kv => timestamp_of (snd kv)) sample_store)).
  { simpl. repeat (constructor; [simpl; intuition discriminate |]). constructor. }
  assert (Hmax : 0 <= 2) by lia.
  assert (Hlt : 2 < JsMap.size sample_store) by reflexivity.
  split; [| reflexivity].
  exact (proj1 (proj2 (proj2 (proj2
           (evict_keeps_most_recent sample_env sample_store 2
              eq_refl Hwf Hnd Hmax))) Hlt)).
Defined.

Lemma In_skipn {A : Type} (x : A) n l : In x (skipn n l) -> In x l.
Proof.
  intros H. rewrite <- (firstn_skipn n l). apply in_or_app. now right.
Qed.

Lemma filter_length_perm {A : Type} (f : A -> bool) (l l' : list A) :
  Permutation l l' -> List.length (filter f l) = List.length (filter f l').
Proof.
  induction 1 as [| x l l' _ IH | x y l | l l' l'' _ IH1 _ IH2]; simpl.
  - reflexivity.
  - destruct (f x); simpl; now rewrite IH.
  - destruct (f x), (f y); reflexivity.
  - now rewrite IH1.
Qed.

(** At every stage of the loop, of two entries the older one goes first. *)
Lemma older_goes_first (m : MemoryMap) k0 e0 k1 e1 n :
  JsMap.wf m ->
  In (k1, e1) m ->
  timestamp_of e0 < timestamp_of e1 ->
  In (k0, e0) (delete_all (firstn n (sort_entries (map to_sort_entry m))) m) ->
  In (k1, e1) (delete_all (firstn n (sort_entries (map to_sort_entry m))) m).
Proof.
  intros Hwf H1 Hlt Hkept.
  apply (kept_iff m Hwf). apply (kept_iff m Hwf) in Hkept.
  apply (In_sorted _ (k1, e1)) in H1.
  rewrite <- (firstn_skipn n) in H1.
  apply in_app_or in H1 as [Hfirst | Hrest]; [| exact Hrest].
  assert (Hs : StronglySorted older_eq
            (firstn n (sort_entries (map to_sort_entry m)) ++
             skipn n (sort_entries (map to_sort_entry m)))).
  { rewrite firstn_skipn. apply sort_entries_sorted. }
  pose proof (sorted_app_le _ _ _ _ Hs Hfirst Hkept) as Hle.
  unfold older_eq in Hle. simpl in Hle. lia.
Qed.

(** An entry goes when the loop has room for all entries that are not
    newer than it. *)
Lemma not_newer_all_removed (m : MemoryMap) k0 e0 n :
  JsMap.wf m ->
  (n <= List.length m)%nat ->
  (List.length
     (filter (fun kv => Z.leb (timestamp_of (snd kv)) (timestamp_of e0)) m)
   <= n)%nat ->
  ~ In (k0, e0) (delete_all (firstn n (sort_entries (map to_sort_entry m))) m).
Proof.
  intros Hwf Hn Hcount Hkept.
  set (S := sort_entries (map to_sort_entry m)) in *.
  apply (kept_iff m Hwf) in Hkept. fold S in Hkept.
  assert (HndS : NoDup S).
  { apply (NoDup_map_inv key). now apply sorted_keys_NoDup. }
  assert (Hs : StronglySorted older_eq (firstn n S ++ skipn n S)).
  { rewrite firstn_skipn. apply sort_entries_sorted. }
  set (F := filter (fun x => Z.leb (timestamp x) (timestamp_of e0)) S).
  assert (Hincl : incl (to_sort_entry (k0, e0) :: firstn n S) F).
  { intros x [<- | Hx]; apply filter_In; split.
    - now apply In_skipn in Hkept.
    - simpl. apply Z.leb_refl.
    - rewrite <- (firstn_skipn n S). apply in_or_app. now left.
    - pose proof (sorted_app_le _ _ _ _ Hs Hx Hkept) as Hle.
      unfold older_eq in Hle. simpl in Hle. now apply Z.leb_le. }
  assert (Hnd : NoDup (to_sort_entry (k0, e0) :: firstn n S)).
  { rewrite <- (firstn_skipn n S) in HndS. constructor.
    - intros Hx. exact (NoDup_app_disjoint _ _ _ HndS Hx Hkept).
    - now apply NoDup_app_remove_r in HndS. }
  pose proof (NoDup_incl_length Hnd Hincl) as Hlen.
  simpl in Hlen. rewrite length_firstn in Hlen.
  unfold F, S in Hlen.
  rewrite (filter_length_perm _ _ _ (sort_entries_perm _)) in Hlen.
  rewrite filter_map_swap, length_map in Hlen.
  rewrite length_sorted in Hlen. simpl in Hlen. lia.
Qed.

(** C10. An entry without a [trackedAt] is sorted with timestamp [0], so it
    is deleted before every entry whose [trackedAt] is positive: at every
    stage of the deletion loop, and so after the call, it is in the store
    only if the positive entry still is.  When the store exceeds a
    non-negative [maxSize], the call leaves [maxSize] entries, and the
    entry without timestamp is among the removed ones whenever a positive
    entry is, and whenever the number to remove covers all entries whose
    timestamp is not positive. *)
Theorem evict_missing_timestamp_first env m maxSize k0 e0 k1 e1 t1 :
  getMemoryMap env = Some m ->
  JsMap.wf m ->
  In (k0, e0) m ->
  In (k1, e1) m ->
  entry_trackedAt e0 = None ->
  entry_trackedAt e1 = Some t1 ->
  0 < t1 ->
  timestamp_of e0 = 0 /\
  (forall j,
     In (k0, e0) (fst (remove_loop (sort_entries (map to_sort_entry m)) 0 j m)) ->
     In (k1, e1) (fst (remove_loop (sort_entries (map to_sort_entry m)) 0 j m))) /\
  (In (k0, e0) (store_entries (evict maxSize env)) ->
   In (k1, e1) (store_entries (evict maxSize env))) /\
  (0 <= maxSize -> maxSize < JsMap.size m ->
   JsMap.size (store_entries (evict maxSize env)) = maxSize /\
   (~ In (k1, e1) (store_entries (evict maxSize env)) ->
    ~ In (k0, e0) (store_entries (evict maxSize env))) /\
   ((List.length (filter (fun kv => Z.leb (timestamp_of (snd kv)) 0) m)
     <= Z.to_nat (JsMap.size m - maxSize))%nat ->
    ~ In (k0, e0) (store_entries (evict maxSize env)))).
Proof.
  intros Hm Hwf H0 H1 Hmiss Hpos Ht.
  pose proof (timestamp_of_missing e0 Hmiss) as Hts0.
  pose proof (timestamp_of_trackedAt e1 t1 Hpos) as Hts1.
  assert (Hlt : timestamp_of e0 < timestamp_of e1) by lia.
  assert (Hfinal : In (k0, e0) (store_entries (evict maxSize env)) ->
                   In (k1, e1) (store_entries (evict maxSize env))).
  { rewrite (evict_entries env m maxSize Hm). unfold evicted.
    destruct (Z.leb (JsMap.size m) maxSize); [now intros _ |].
    now apply older_goes_first. }
  split; [exact Hts0 |]. split; [| split; [exact Hfinal |]].
  - intros j. rewrite remove_loop_map. cbn [skipn]. now apply older_goes_first.
  - intros Hmax Hsize.
    rewrite (evict_entries env m maxSize Hm) in *. unfold evicted in *.
    destruct (Z.leb_spec (JsMap.size m) maxSize) as [Hle | _]; [lia |].
    split; [| split].
    + pose proof (length_after m Hwf (Z.to_nat (JsMap.size m - maxSize))) as Hlen.
      unfold JsMap.size in *. lia.
    + intros Hout Hin. now apply Hout, Hfinal.
    + intros Hcount. apply not_newer_all_removed; [assumption | |].
      * unfold JsMap.size in *. lia.
      * now rewrite Hts0.
Qed.

(** A store of two, evicted down to one: the entry without timestamp goes,
    although it was inserted last. *)
Lemma evict_missing_timestamp_first_witness :
  JsMap.size (store_entries (evict 1 bare_env)) = 1 /\
  ~ In ("old", bare_entry) (store_entries (evict 1 bare_env)).
Proof.
  assert (Hwf : JsMap.wf bare_store).
  { unfold JsMap.wf. simpl.
    repeat (constructor; [simpl; intuition discriminate |]). constructor. }
  assert (H0 : In ("old", bare_entry) bare_store) by (simpl; tauto).
  assert (H1 : In ("new", sample_entry 5) bare_store) by (simpl; tauto).
  assert (Ht : 0 < 5) by lia.
  assert (Hmax : 0 <= 1) by lia.
  assert (Hsize : 1 < JsMap.size bare_store) by reflexivity.
  destruct (evict_missing_timestamp_first bare_env bare_store 1
              "old" bare_entry "new" (sample_entry 5) 5
              eq_refl Hwf H0 H1 eq_refl eq_refl Ht)
    as (_ & _ & _ & Hexceeds).
  destruct (Hexceeds Hmax Hsize) as (Hone & _ & Hgone).
  split; [exact Hone |]. apply Hgone. vm_compute. apply le_n.
Defined.

(** C4, as stated, fails: the size of the key set is 2 only for a value
    that was not tracked before.  In the sample store ["c"] already has the
    key ["k"]; after tracking it under ["k1"] and ["k2"] its entry holds
    three keys. *)
Lemma track_twice_not_size_two :
  ~ exists e,
      JsMap.get "c"
        (store_entries
           (trackTranslation "c" "k2" None None false 2
              (trackTranslation "c" "k1" None None false 1 sample_env)))
        = Some e /\
      JsSet.has (normalize "k1") (ids e) = true /\
      JsSet.has (normalize "k2") (ids e) = true /\
      JsSet.size (ids e) = 2%nat.
Proof.
  intros (e & He & _ & _ & Hsize).
  vm_compute in He. injection He as <-. discriminate Hsize.
Qed.

(** C4, amended.  On an initialised store, tracking [v] under [k1] and then
    under [k2], whose normal forms differ, leaves one entry for [v]; its
    key set holds both normal forms and, besides them, exactly the keys [v]
    had before, so it has size 2 when [v] had no entry.  In general a call
    for [v] only adds to the key set of [v]'s entry, a call for another
    value does not touch it, and eviction either removes the entry or
    leaves it as it is. *)
Theorem track_twice_accumulates_keys :
  (forall env m v k1 k2 ns1 ns2 l1 l2 d1 d2 t1 t2,
     getMemoryMap env = Some m ->
     JsMap.wf m ->
     normalize k1 <> normalize k2 ->
     let env' := trackTranslation v k2 ns2 l2 d2 t2
                   (trackTranslation v k1 ns1 l1 d1 t1 env) in
     exists e,
       JsMap.get v (store_entries env') = Some e /\
       count_occ string_dec (JsMap.keys (store_entries env')) v = 1%nat /\
       JsSet.has (normalize k1) (ids e) = true /\
       JsSet.has (normalize k2) (ids e) = true /\
       (forall x,
          JsSet.has x (ids e) = true <->
          x = normalize k1 \/ x = normalize k2 \/
          exists e0, JsMap.get v m = Some e0 /\ JsSet.has x (ids e0) = true) /\
       (JsMap.get v m = None ->
        ids e = [normalize k1; normalize k2] /\ JsSet.size (ids e) = 2%nat)) /\
  (forall env m v e k ns l d t,
     getMemoryMap env = Some m ->
     JsMap.get v m = Some e ->
     exists e',
       JsMap.get v (store_entries (trackTranslation v k ns l d t env)) = Some e' /\
       forall x, JsSet.has x (ids e) = true -> JsSet.has x (ids e') = true) /\
  (forall env v v' k ns l d t,
     v' <> v ->
     JsMap.get v' (store_entries (trackTranslation v k ns l d t env)) =
     JsMap.get v' (store_entries env)) /\
  (forall env maxSize v e,
     JsMap.wf (store_entries env) ->
     JsMap.get v (store_entries (evict maxSize env)) = Some e ->
     JsMap.get v (store_entries env) = Some e).
Proof.
  split; [| split; [| split]].
  - intros env m v k1 k2 ns1 ns2 l1 l2 d1 d2 t1 t2 Hm Hwf Hne env'.
    pose proof (getMemoryMap_track env m v k1 ns1 l1 d1 t1 Hm) as Hm1.
    pose proof (getMemoryMap_track _ _ v k2 ns2 l2 d2 t2 Hm1) as Hm2.
    fold env' in Hm2. rewrite get_set_same in Hm2. cbn [ids] in Hm2.
    rewrite (store_entries_get _ _ Hm2), get_set_same.
    eexists. split; [reflexivity |]. cbn [ids].
    assert (Hids : forall x,
      JsSet.has x (JsSet.add (normalize k2) (JsSet.add (normalize k1)
        match JsMap.get v m with Some e => ids e | None => JsSet.empty end)) = true <->
      x = normalize k1 \/ x = normalize k2 \/
      exists e0, JsMap.get v m = Some e0 /\ JsSet.has x (ids e0) = true).
    { intros x. rewrite !set_has_add, !orb_true_iff, !String.eqb_eq. split.
      - intros [-> | [-> | H]]; [tauto | tauto |].
        destruct (JsMap.get v m) as [e0 |]; [| discriminate].
        right. right. now exists e0.
      - intros [-> | [-> | (e0 & -> & H)]]; tauto. }
    split; [| split; [| split; [| split]]].
    + apply (get_Some_count _ _ _ (set_wf _ _ _ (set_wf _ _ _ Hwf))
               (get_set_same _ _ _)).
    + apply Hids. now left.
    + apply Hids. right. now left.
    + exact Hids.
    + intros ->. unfold JsSet.add, JsSet.has, JsSet.size. simpl.
      destruct (String.eqb_spec (normalize k2) (normalize k1)) as [E | _];
        [now destruct Hne |].
      now split.
  - intros env m v e k ns l d t Hm He.
    destruct (track_keys_grow env m v e k ns l d t Hm He) as (e' & He' & _ & Hsub).
    now exists e'.
  - intros env v v' k ns l d t Hne. now apply track_other_value.
  - intros env maxSize v e Hwf H. now apply (evict_entry_unchanged env maxSize).
Qed.

(** The test of the repository: one value, two keys, on a fresh store. *)
Lemma track_twice_accumulates_keys_witness :
  exists e,
    JsMap.get "Welcome"
      (store_entries
         (trackTranslation "Welcome" "homepage.title" (Some "homepage") (Some "en") false 2
            (trackTranslation "Welcome" "common.welcome" (Some "common") (Some "en") false 1
               empty_env))) = Some e /\
    JsSet.size (ids e) = 2%nat.
Proof.
  assert (Hwf : JsMap.wf (@nil (string * MemoryMapEntry))) by constructor.
  assert (Hne : normalize "common.welcome" <> normalize "homepage.title")
    by (vm_compute; discriminate).
  destruct (proj1 track_twice_accumulates_keys empty_env [] "Welcome"
              "common.welcome" "homepage.title" (Some "common") (Some "homepage")
              (Some "en") (Some "en") false false 1 2 eq_refl Hwf Hne)
    as (e & He & _ & _ & _ & _ & Hfresh).
  exists e. split; [exact He | exact (proj2 (Hfresh eq_refl))].
Defined.

(** C5 fails on the code for the empty value: [trackTranslation] has no
    guard on [translationValue], so on an initialised store the call
    [track("", k)] records an entry under the empty string. *)
Theorem track_empty_value_creates_entry k ns l d t :
  store_entries (trackTranslation "" k ns l d t empty_env) =
  [("", {| ids := [normalize k];
           type := text;
           metadata := Some {| md_namespace := ns;
                               md_language := l;
                               trackedAt := Some t |} |})].
Proof. reflexivity. Qed.

Example track_empty_value_k :
  JsMap.has "" (store_entries (trackTranslation "" "k" None None false 0 empty_env))
  = true.
Proof. reflexivity. Qed.

(** The bulk loader filters empty values out before it calls
    [trackTranslation]: it never touches the entry of the empty string. *)
Lemma track_loop_skips_empty flat language debug clock : forall i env,
  JsMap.get "" (store_entries (track_loop flat language debug clock i env)) =
  JsMap.get "" (store_entries env).
Proof.
  induction flat as [| [k v] flat IH]; intros i env; simpl; [reflexivity |].
  destruct v as [| c v]; [apply IH |].
  rewrite IH. now apply track_other_value.
Qed.

Lemma trackTranslations_skips_empty translations ns language debug clock env :
  JsMap.get "" (store_entries
                  (trackTranslations translations ns language debug clock env)) =
  JsMap.get "" (store_entries env).
Proof.
  unfold trackTranslations. destruct env; [| reflexivity].
  apply track_loop_skips_empty.
Qed.

(** The other half of C5 holds: without a store the call is a no-op. *)
Lemma track_without_store v k ns l d t :
  trackTranslation v k ns l d t None = None /\
  trackTranslation v k ns l d t (Some (mkWindow None)) = Some (mkWindow None).
Proof. split; reflexivity. Qed.


(** ** Flattening *)

Lemma JsValue_nested_ind (P : JsValue -> Prop) :
  (forall s, P (VString s)) ->
  (forall n, P (VNumber n)) ->
  (forall b, P (VBool b)) ->
  P VNull ->
  (forall items, P (VArray items)) ->
  (forall props, Forall (fun kv => P (snd kv)) props -> P (VObject props)) ->
  forall v, P v.
Proof.
  intros Hs Hn Hb Hnull Harr Hobj.
  fix IH 1.
  intros [s | n | b | | items | props];
    [apply Hs | apply Hn | apply Hb | exact Hnull | apply Harr |].
  apply Hobj. induction props as [| [k v] props IHprops]; constructor.
  - apply IH.
  - exact IHprops.
Qed.

Lemma flatten_value_object fullKey props :
  flatten_value fullKey (VObject props) =
  flat_map (fun kv => flatten_value (full_key fullKey (fst kv)) (snd kv)) props.
Proof.
  induction props as [| [k v] props IH]; [reflexivity |].
  simpl in *. now rewrite IH.
Qed.

(** The loop of the source, one property at a time. *)
Lemma flattenTranslations_cons k v obj prefix :
  flattenTranslations ((k, v) :: obj) prefix =
  (match v with
   | VString s => [(full_key prefix k, s)]
   | VObject props => flattenTranslations props (full_key prefix k)
   | _ => []
   end ++ flattenTranslations obj prefix)%list.
Proof.
  unfold flattenTranslations. simpl. f_equal.
  destruct v; try reflexivity. apply flatten_value_object.
Qed.

Lemma string_leaves_object path props :
  string_leaves path (VObject props) =
  flat_map (fun kv => string_leaves (path ++ [fst kv]) (snd kv)) props.
Proof.
  induction props as [| [k v] props IH]; [reflexivity |].
  simpl in *. now rewrite IH.
Qed.

Lemma string_app_assoc (a b c : string) : (a ++ b) ++ c = a ++ b ++ c.
Proof. induction a as [| x a IH]; simpl; [reflexivity | now rewrite IH]. Qed.

Lemma dot_join_snoc path k :
  path <> [] -> dot_join (path ++ [k]) = dot_join path ++ "." ++ k.
Proof.
  unfold dot_join. induction path as [| x path IH]; [congruence |].
  intros _. destruct path as [| y path]; [reflexivity |].
  change (String.concat "." ((x :: y :: path) ++ [k]))
    with (x ++ "." ++ String.concat "." ((y :: path) ++ [k])).
  rewrite IH by discriminate.
  change (String.concat "." (x :: y :: path))
    with (x ++ "." ++ String.concat "." (y :: path)).
  now rewrite string_app_assoc.
Qed.

Lemma map_flat_map {A B C : Type} (f : B -> C) (g : A -> list B) l :
  map f (flat_map g l) = flat_map (fun a => map f (g a)) l.
Proof.
  induction l as [| a l IH]; simpl; [reflexivity |].
  now rewrite map_app, IH.
Qed.

Lemma flat_map_ext_Forall {A B : Type} (f g : A -> list B) l :
  Forall (fun a => f a = g a) l -> flat_map f l = flat_map g l.
Proof. induction 1 as [| a l E _ IH]; simpl; [reflexivity | now rewrite E, IH]. Qed.

(** Below a non-empty prefix the code joins the path with dots. *)
Lemma flatten_value_spec v : forall prefix path,
  path <> [] -> prefix = dot_join path -> prefix <> "" ->
  flatten_value prefix v =
  map (fun ps => (dot_join (fst ps), snd ps)) (string_leaves path v).
Proof.
  induction v as [s | n | b | | items | props IH] using JsValue_nested_ind;
    intros prefix path Hpath Hprefix Hne; try reflexivity.
  - simpl. now rewrite Hprefix.
  - rewrite flatten_value_object, string_leaves_object, map_flat_map.
    apply flat_map_ext_Forall.
    eapply Forall_impl; [| exact IH]. intros [k v] Hv. simpl in *.
    apply Hv.
    + now destruct path.
    + rewrite dot_join_snoc by assumption. rewrite <- Hprefix.
      destruct prefix; [congruence | reflexivity].
    + destruct prefix; [congruence | discriminate].
Qed.

(** Where no top-level key is empty, the code yields what the wording of
    the specification describes. *)
Lemma flatten_agrees_with_spec obj :
  Forall (fun kv => fst kv <> "") obj ->
  flattenTranslations obj "" = flatten_spec obj.
Proof.
  intros Hkeys. unfold flattenTranslations, flatten_spec.
  rewrite map_flat_map. apply flat_map_ext_Forall.
  eapply Forall_impl; [| exact Hkeys]. intros [k v] Hk. simpl in *.
  now apply flatten_value_spec.
Qed.

Example flatten_example :
  flattenTranslations
    [("a", VString "x"); ("b", VNumber 5); ("c", VObject [("d", VString "y")])] ""
  = [("a", "x"); ("c.d", "y")].
Proof. reflexivity. Qed.

(** C7 fails on the code for a leaf below an empty top-level key: the
    empty prefix is taken for no prefix, and the leaf comes out under the
    key ["a"] where the dot-joined path is [".a"]. *)
Theorem flatten_empty_key_loses_segment :
  flattenTranslations [("", VObject [("a", VString "x")])] "" = [("a", "x")] /\
  flatten_spec [("", VObject [("a", VString "x")])] = [(".a", "x")] /\
  flattenTranslations [("", VObject [("a", VString "x")]); ("a", VString "y")] ""
    = [("a", "x"); ("a", "y")].
Proof. repeat split; reflexivity. Qed.

(* ================================================================== *)
(** * Further properties of the code *)

(** ** Initialisation *)

(** X1. [initializeMemoryMap] is safe to repeat: a second call changes
    nothing and returns the same handle; the first call keeps every entry
    that is already there, returns the map that [getMemoryMap] then
    yields, and yields a map whenever there is a window. *)
Theorem initializeMemoryMap_idempotent (env : Env) :
  initializeMemoryMap (fst (initializeMemoryMap env)) = initializeMemoryMap env /\
  snd (initializeMemoryMap env) = getMemoryMap (fst (initializeMemoryMap env)) /\
  store_entries (fst (initializeMemoryMap env)) = store_entries env /\
  (env = None \/ exists m, snd (initializeMemoryMap env) = Some m).
Proof.
  destruct env as [[[m |]] |]; cbn; repeat split; eauto.
Qed.

(** ** The store invariant *)

Lemma Forall_set {V : Type} (P : string * V -> Prop) (m : JsMap.t V) k v :
  Forall P m -> P (k, v) -> Forall P (JsMap.set k v m).
Proof.
  intros Hm Hv. induction Hm as [| [k' v'] m Hx Hm IH]; simpl.
  - now constructor.
  - destruct (String.eqb_spec k k') as [-> | Hne]; constructor; trivial.
Qed.

Lemma Forall_delete {V : Type} (P : string * V -> Prop) (m : JsMap.t V) k :
  Forall P m -> Forall P (JsMap.delete k m).
Proof.
  intros Hm. rewrite Forall_forall in *. intros kv Hin.
  apply Hm. now apply delete_incl in Hin.
Qed.

Lemma Forall_delete_all (P : string * MemoryMapEntry -> Prop) es :
  forall m, Forall P m -> Forall P (delete_all es m).
Proof.
  induction es as [| e es IH]; intros m Hm; simpl; [assumption |].
  apply IH. now apply Forall_delete.
Qed.

Lemma set_has_In (x : string) (s : JsSet.t) : JsSet.has x s = true <-> In x s.
Proof.
  unfold JsSet.has. rewrite existsb_exists. split.
  - intros (y & Hy & E). apply String.eqb_eq in E. now subst.
  - intros H. exists x. split; [assumption | apply String.eqb_refl].
Qed.

Lemma set_add_ok (x : string) (s : JsSet.t) :
  NoDup s -> JsSet.add x s <> [] /\ NoDup (JsSet.add x s).
Proof.
  intros Hnd. unfold JsSet.add. destruct (JsSet.has x s) eqn:E.
  - split; [| assumption]. apply set_has_In in E. now destruct s.
  - split; [now destruct s |].
    apply (Permutation_NoDup (Permutation_cons_append s x)).
    constructor; [| assumption].
    intros Hin. apply set_has_In in Hin. congruence.
Qed.

Lemma get_Forall {V : Type} (P : string * V -> Prop) (m : JsMap.t V) k v :
  Forall P m -> JsMap.get k m = Some v -> P (k, v).
Proof.
  intros Hm Hget. rewrite Forall_forall in Hm. now apply Hm, get_In.
Qed.

Lemma track_store_ok env v k ns l d t :
  store_ok env -> store_ok (trackTranslation v k ns l d t env).
Proof.
  intros [Hwf Hall]. split; [now apply track_wf |].
  destruct (getMemoryMap env) as [m |] eqn:E.
  - rewrite (store_entries_get _ _ (getMemoryMap_track env m v k ns l d t E)).
    rewrite (store_entries_get _ _ E) in Hall.
    apply Forall_set; [assumption |]. unfold entry_ok. cbn [snd ids].
    apply set_add_ok.
    destruct (JsMap.get v m) as [e |] eqn:Hget; [| constructor].
    exact (proj2 (get_Forall _ m v e Hall Hget)).
  - now rewrite track_uninitialized.
Qed.

Lemma evict_store_ok env maxSize : store_ok env -> store_ok (evict maxSize env).
Proof.
  intros [Hwf Hall]. split; [now apply evict_wf |].
  destruct (getMemoryMap env) as [m |] eqn:E.
  - rewrite (evict_entries env m maxSize E).
    rewrite (store_entries_get _ _ E) in Hall. now apply Forall_delete_all.
  - unfold evict. now rewrite evict_uninitialized.
Qed.

Lemma track_loop_store_ok flat language debug clock : forall i env,
  store_ok env -> store_ok (track_loop flat language debug clock i env).
Proof.
  induction flat as [| [k v] flat IH]; intros i env Hok; simpl; [assumption |].
  destruct v; apply IH; [assumption | now apply track_store_ok].
Qed.

(** X2. Every operation on the store keeps it well formed: one entry per
    value, every entry with a duplicate-free and non-empty key set.  This
    holds for a store that was just created and is kept by initialising
    again, by [trackTranslation], by [process], by a bulk load and by
    eviction. *)
Theorem store_ok_preserved :
  store_ok empty_env /\
  (forall env, store_ok env -> store_ok (fst (initializeMemoryMap env))) /\
  (forall env v k ns l d t,
     store_ok env -> store_ok (trackTranslation v k ns l d t env)) /\
  (forall env live d v k lng tl options t,
     store_ok env -> store_ok (snd (process live d v k lng tl options t env))) /\
  (forall env translations ns l d clock,
     store_ok env -> store_ok (trackTranslations translations ns l d clock env)) /\
  (forall env maxSize, store_ok env -> store_ok (evict maxSize env)).
Proof.
  split; [split; constructor |].
  split; [intros env Hok; now destruct env as [[[m |]] |] |].
  split; [intros; now apply track_store_ok |].
  split; [| split].
  - intros env live d v k lng tl options t Hok. unfold process.
    destruct live; cbn [negb]; [| exact Hok].
    now destruct (first_key k).
  - intros env translations ns l d clock Hok. unfold trackTranslations.
    destruct env; [| exact Hok]. now apply track_loop_store_ok.
  - intros env maxSize Hok. now apply evict_store_ok.
Qed.

Lemma store_ok_preserved_witness :
  store_ok (evict 1
    (trackTranslation "Bye" "common.bye" None (Some "en") false 2
       (trackTranslation "Hi" "common:hi" (Some "common") (Some "en") false 1
          empty_env))).
Proof.
  destruct store_ok_preserved as (H0 & _ & Htrack & _ & _ & Hevict).
  apply Hevict, Htrack, Htrack, H0.
Defined.

(** ** Tracking: what one call writes *)

(** X3. After [trackTranslation] on an initialised store, looking the value
    up gives an entry of type [text] whose metadata are those of this call
    and whose key set holds the normalised key and, besides it, exactly the
    keys the value had before. *)
Theorem track_then_lookup env m v k ns l d t :
  getMemoryMap env = Some m ->
  exists e,
    JsMap.get v (store_entries (trackTranslation v k ns l d t env)) = Some e /\
    type e = text /\
    metadata e = Some {| md_namespace := ns; md_language := l; trackedAt := Some t |} /\
    forall x,
      JsSet.has x (ids e) = true <->
      x = normalize k \/
      exists e0, JsMap.get v m = Some e0 /\ JsSet.has x (ids e0) = true.
Proof.
  intros Hm.
  rewrite (store_entries_get _ _ (getMemoryMap_track env m v k ns l d t Hm)).
  rewrite get_set_same. eexists. split; [reflexivity |].
  split; [reflexivity |]. split; [reflexivity |].
  intros x. cbn [ids]. rewrite set_has_add, orb_true_iff. split.
  - intros [E | H]; [left; now apply String.eqb_eq |].
    destruct (JsMap.get v m) as [e0 |]; [| discriminate].
    right. now exists e0.
  - intros [-> | (e0 & -> & H)]; [left; apply String.eqb_refl | now right].
Qed.

Lemma track_then_lookup_witness :
  exists e,
    JsMap.get "c"
      (store_entries (trackTranslation "c" "ns:k" None None false 40 sample_env))
      = Some e /\
    JsSet.has "ns.k" (ids e) = true /\ JsSet.has "k" (ids e) = true.
Proof.
  destruct (track_then_lookup sample_env sample_store "c" "ns:k" None None false 40
              eq_refl) as (e & He & _ & _ & Hids).
  exists e. split; [exact He |]. split; apply Hids.
  - left. vm_compute. reflexivity.
  - right. exists (sample_entry 30). split; reflexivity.
Defined.

(** X4. [trackTranslation] keeps the insertion order of the map: a value
    that is already tracked keeps its place, a new value goes to the end,
    so the size grows by one for a new value and not at all otherwise. *)
Theorem track_insertion_order env m v k ns l d t :
  getMemoryMap env = Some m ->
  JsMap.keys (store_entries (trackTranslation v k ns l d t env)) =
    (if JsMap.has v m then JsMap.keys m else (JsMap.keys m ++ [v])%list) /\
  JsMap.size (store_entries (trackTranslation v k ns l d t env)) =
    (if JsMap.has v m then JsMap.size m else JsMap.size m + 1).
Proof.
  intros Hm.
  rewrite (store_entries_get _ _ (getMemoryMap_track env m v k ns l d t Hm)).
  assert (Hkeys : forall e, JsMap.keys (JsMap.set v e m) =
            if JsMap.has v m then JsMap.keys m else (JsMap.keys m ++ [v])%list).
  { intros e. rewrite keys_set. unfold JsMap.has. now destruct (JsMap.get v m). }
  split; [apply Hkeys |].
  unfold JsMap.size. rewrite <- !(length_map fst).
  change (map fst (JsMap.set v ?e m)) with (JsMap.keys (JsMap.set v e m)).
  change (map fst m) with (JsMap.keys m).
  rewrite Hkeys. destruct (JsMap.has v m); [reflexivity |].
  rewrite length_app. simpl. lia.
Qed.

Lemma track_insertion_order_witness :
  JsMap.keys (store_entries
    (trackTranslation "a" "k2" None None false 40 sample_env)) = ["c"; "a"; "b"].
Proof.
  exact (proj1 (track_insertion_order sample_env sample_store "a" "k2"
                  None None false 40 eq_refl)).
Defined.

Lemma set_set {V : Type} (m : JsMap.t V) k v1 v2 :
  JsMap.set k v2 (JsMap.set k v1 m) = JsMap.set k v2 m.
Proof.
  induction m as [| [k' v'] m IH]; simpl.
  - now rewrite String.eqb_refl.
  - destruct (String.eqb_spec k k') as [-> | Hne]; simpl.
    + now rewrite String.eqb_refl.
    + destruct (String.eqb_spec k k'); [contradiction | now rewrite IH].
Qed.

Lemma set_add_add (x : string) (s : JsSet.t) :
  JsSet.add x (JsSet.add x s) = JsSet.add x s.
Proof.
  unfold JsSet.add at 1. now rewrite set_has_add, String.eqb_refl.
Qed.

Lemma with_memoryMap_twice env m1 m2 :
  with_memoryMap (with_memoryMap env m1) m2 = with_memoryMap env m2.
Proof. now destruct env. Qed.

(** X5. Tracking a value again under a key with the same normal form is
    absorbed by the later call: the store is the one the later call alone
    would give.  The key set is a set, and the scalar fields are those of
    the last write. *)
Theorem retrack_absorbed env v k1 k2 ns1 ns2 l1 l2 d1 d2 t1 t2 :
  normalize k1 = normalize k2 ->
  trackTranslation v k2 ns2 l2 d2 t2 (trackTranslation v k1 ns1 l1 d1 t1 env) =
  trackTranslation v k2 ns2 l2 d2 t2 env.
Proof.
  intros Hk. destruct (getMemoryMap env) as [m |] eqn:Hm.
  - pose proof (getMemoryMap_track env m v k1 ns1 l1 d1 t1 Hm) as Hm1.
    unfold trackTranslation at 1. rewrite Hm1.
    unfold trackTranslation. rewrite Hm.
    rewrite with_memoryMap_twice, set_set, get_set_same. cbn [ids].
    change (normalizeKey k2 ns2) with (normalize k2).
    change (normalizeKey k1 ns1) with (normalize k1).
    now rewrite Hk, set_add_add.
  - now rewrite (track_uninitialized env v k1 ns1 l1 d1 t1 Hm).
Qed.

Lemma retrack_absorbed_witness :
  trackTranslation "Hi" "common.hi" None None false 2
    (trackTranslation "Hi" "common:hi" (Some "common") None false 1 empty_env) =
  trackTranslation "Hi" "common.hi" None None false 2 empty_env.
Proof.
  apply retrack_absorbed. vm_compute. reflexivity.
Defined.

(** ** Eviction: size, bounds and order *)

Lemma getMemoryMap_evict env m maxSize :
  getMemoryMap env = Some m ->
  getMemoryMap (evict maxSize env) = Some (delete_all (evicted maxSize m) m).
Proof.
  intros H. unfold evict, cleanupMemoryMap, evicted. rewrite H.
  destruct (Z.leb (JsMap.size m) maxSize); [exact H |].
  pose proof (remove_loop_map (sort_entries (map to_sort_entry m))
                (Z.to_nat (JsMap.size m - maxSize)) 0 m) as Hloop.
  destruct (remove_loop _ 0 _ m) as [m' c]. simpl in *.
  rewrite <- Hloop. now apply getMemoryMap_with with (m := m).
Qed.

Lemma evict_size (m : MemoryMap) maxSize :
  JsMap.wf m -> 0 <= maxSize ->
  JsMap.size (delete_all (evicted maxSize m) m) = Z.min (JsMap.size m) maxSize.
Proof.
  intros Hwf Hmax. unfold evicted.
  destruct (Z.leb_spec (JsMap.size m) maxSize) as [Hle | Hgt]; [simpl; lia |].
  pose proof (length_after m Hwf (Z.to_nat (JsMap.size m - maxSize))) as Hlen.
  unfold JsMap.size in *. lia.
Qed.

(** X6. With a non-negative bound, eviction leaves [min size maxSize]
    entries, whether or not timestamps coincide, and evicting again with
    the same bound changes nothing. *)
Theorem evict_size_min env maxSize :
  JsMap.wf (store_entries env) ->
  0 <= maxSize ->
  JsMap.size (store_entries (evict maxSize env)) =
    Z.min (JsMap.size (store_entries env)) maxSize /\
  evict maxSize (evict maxSize env) = evict maxSize env.
Proof.
  intros Hwf Hmax. destruct (getMemoryMap env) as [m |] eqn:Hm.
  - rewrite (store_entries_get _ _ Hm) in *.
    pose proof (getMemoryMap_evict env m maxSize Hm) as Hm'.
    rewrite (store_entries_get _ _ Hm').
    pose proof (evict_size m maxSize Hwf Hmax) as Hsize.
    split; [exact Hsize |].
    unfold evict at 1. unfold cleanupMemoryMap. rewrite Hm'.
    destruct (Z.leb_spec (JsMap.size (delete_all (evicted maxSize m) m)) maxSize);
      [reflexivity | lia].
  - unfold evict. rewrite !evict_uninitialized by assumption. simpl.
    unfold store_entries. rewrite Hm.
    split; [unfold JsMap.size; simpl; lia | reflexivity].
Qed.

Lemma evict_size_min_witness :
  JsMap.size (store_entries (evict 2 sample_env)) = 2 /\
  evict 2 (evict 2 sample_env) = evict 2 sample_env.
Proof.
  assert (Hwf : JsMap.wf (store_entries sample_env)).
  { unfold JsMap.wf. simpl.
    repeat (constructor; [simpl; intuition discriminate |]). constructor. }
  assert (Hmax : 0 <= 2) by lia.
  exact (evict_size_min sample_env 2 Hwf Hmax).
Defined.

Lemma remove_loop_throws entries n : forall i m,
  (i <= List.length entries)%nat -> (List.length entries < i + n)%nat ->
  snd (remove_loop entries i n m) = Throws.
Proof.
  induction n as [| n IH]; intros i m Hi Hn; [lia |]. simpl.
  destruct (nth_error entries i) as [e |] eqn:E; [| reflexivity].
  assert (i < List.length entries)%nat
    by (apply nth_error_Some; congruence).
  apply IH; lia.
Qed.

Lemma delete_all_everything (m : MemoryMap) :
  JsMap.wf m -> delete_all (sort_entries (map to_sort_entry m)) m = [].
Proof.
  intros Hwf.
  pose proof (length_after m Hwf (List.length m)) as Hlen.
  rewrite firstn_all2 in Hlen by (rewrite length_sorted; lia).
  rewrite Nat.min_id in Hlen.
  destruct (delete_all _ m); [reflexivity | simpl in Hlen; lia].
Qed.

(** X7. A negative bound is not rejected: on an initialised store the call
    deletes every entry and then throws, because the loop runs past the end
    of the sorted array and reads [key] of [undefined]. *)
Theorem evict_negative_throws env m maxSize :
  getMemoryMap env = Some m ->
  JsMap.wf m ->
  maxSize < 0 ->
  cleanupMemoryMap maxSize env = (with_memoryMap env [], Throws).
Proof.
  intros Hm Hwf Hneg. unfold cleanupMemoryMap. rewrite Hm.
  assert (Hsize : 0 <= JsMap.size m) by (unfold JsMap.size; lia).
  destruct (Z.leb_spec (JsMap.size m) maxSize) as [Hle | _]; [lia |].
  set (S := sort_entries (map to_sort_entry m)).
  set (n := Z.to_nat (JsMap.size m - maxSize)).
  assert (Hn : (List.length S < n)%nat).
  { unfold S, n. rewrite length_sorted. unfold JsMap.size. lia. }
  pose proof (remove_loop_map S n 0 m) as Hfst.
  pose proof (remove_loop_throws S n 0 m (Nat.le_0_l _) Hn) as Hsnd.
  destruct (remove_loop S 0 n m) as [m' c]. simpl in *. subst c.
  rewrite firstn_all2 in Hfst by lia.
  unfold S in Hfst. now rewrite (delete_all_everything m Hwf) in Hfst; subst m'.
Qed.

Lemma evict_negative_throws_witness :
  cleanupMemoryMap (-1) sample_env = (Some (mkWindow (Some [])), Throws).
Proof.
  assert (Hwf : JsMap.wf sample_store).
  { unfold JsMap.wf. simpl.
    repeat (constructor; [simpl; intuition discriminate |]). constructor. }
  assert (Hneg : -1 < 0) by lia.
  exact (evict_negative_throws sample_env sample_store (-1) eq_refl Hwf Hneg).
Defined.

Lemma filter_id_notin {V : Type} (m : JsMap.t V) k :
  ~ In k (JsMap.keys m) ->
  filter (fun kv => negb (String.eqb k (fst kv))) m = m.
Proof.
  induction m as [| [k' v'] m IH]; simpl; [reflexivity |].
  intros Hnotin. destruct (String.eqb_spec k k') as [-> | Hne]; simpl.
  - destruct Hnotin. now left.
  - rewrite IH; [reflexivity | tauto].
Qed.

Lemma delete_filter {V : Type} (m : JsMap.t V) k :
  JsMap.wf m ->
  JsMap.delete k m = filter (fun kv => negb (String.eqb k (fst kv))) m.
Proof.
  unfold JsMap.wf. induction m as [| [k' v'] m IH]; simpl; [reflexivity |].
  intros Hwf. inversion Hwf as [| ? ? Hnotin Hwf']; subst.
  destruct (String.eqb_spec k k') as [-> | Hne]; simpl.
  - symmetry. now apply filter_id_notin.
  - now rewrite IH.
Qed.

Lemma filter_twice {A : Type} (f g : A -> bool) (l : list A) :
  filter f (filter g l) = filter (fun x => g x && f x) l.
Proof.
  induction l as [| x l IH]; simpl; [reflexivity |].
  destruct (g x); simpl; [destruct (f x) |]; now rewrite IH.
Qed.

Lemma delete_all_filter es : forall m : MemoryMap,
  JsMap.wf m ->
  exists keep, delete_all es m = filter (fun kv => keep (fst kv)) m.
Proof.
  induction es as [| e es IH]; intros m Hwf; simpl.
  - exists (fun _ => true). induction m as [| x m IHm]; simpl; [reflexivity |].
    rewrite <- IHm; [reflexivity |]. now inversion Hwf.
  - destruct (IH (JsMap.delete (key e) m) (delete_wf m (key e) Hwf)) as [keep Hkeep].
    exists (fun k => negb (String.eqb (key e) k) && keep k).
    rewrite Hkeep, (delete_filter m (key e) Hwf). apply filter_twice.
Qed.

(** X8. Eviction only deletes: what is left is the old map with some keys
    filtered out, so the surviving entries keep their content and their
    relative insertion order. *)
Theorem evict_keeps_order env maxSize :
  JsMap.wf (store_entries env) ->
  exists keep : string -> bool,
    store_entries (evict maxSize env) =
    filter (fun kv => keep (fst kv)) (store_entries env).
Proof.
  intros Hwf. destruct (getMemoryMap env) as [m |] eqn:Hm.
  - rewrite (evict_entries env m maxSize Hm).
    rewrite (store_entries_get _ _ Hm) in *. now apply delete_all_filter.
  - unfold evict. rewrite evict_uninitialized by assumption. simpl.
    unfold store_entries. rewrite Hm. now exists (fun _ => true).
Qed.

Lemma evict_keeps_order_witness :
  exists keep : string -> bool,
    store_entries (evict 2 sample_env) =
    filter (fun kv => keep (fst kv)) (store_entries sample_env).
Proof.
  apply evict_keeps_order. unfold JsMap.wf. simpl.
  repeat (constructor; [simpl; intuition discriminate |]). constructor.
Defined.

(** *** Ties *)

Lemma before_cons {A : Type} (a b x : A) l : before a b l -> before a b (x :: l).
Proof.
  intros (l1 & l2 & l3 & ->). now exists (x :: l1), l2, l3.
Qed.

Lemma before_head {A : Type} (a b : A) l : In b l -> before a b (a :: l).
Proof.
  intros H. apply in_split in H as (l2 & l3 & ->). now exists [], l2, l3.
Qed.

Lemma before_inv {A : Type} (a b y : A) l :
  before a b (y :: l) -> (a = y /\ In b l) \/ before a b l.
Proof.
  intros ([| x l1] & l2 & l3 & E); simpl in E; injection E as -> ->.
  - left. split; [reflexivity |]. apply in_or_app. right. now left.
  - right. now exists l1, l2, l3.
Qed.

Lemma before_In_r {A : Type} (a b : A) l : before a b l -> In b l.
Proof.
  intros (l1 & l2 & l3 & ->).
  apply in_or_app. right. right. apply in_or_app. right. now left.
Qed.

Lemma before_insert a b x l :
  before a b l -> before a b (sort_insert x l).
Proof.
  induction l as [| y l IH]; intros H.
  - destruct H as ([| ? ?] & ? & ? & E); discriminate.
  - simpl. destruct (Z.leb (compare_entries x y) 0); [now apply before_cons |].
    apply before_inv in H as [[-> Hb] | H].
    + apply before_head.
      now apply (Permutation_in _ (Permutation_sym (sort_insert_perm x l))), in_cons.
    + now apply before_cons, IH.
Qed.

Lemma insert_before_ties a b l :
  In b l -> timestamp a <= timestamp b -> before a b (sort_insert a l).
Proof.
  induction l as [| y l IH]; intros Hb Hle; [contradiction |]. simpl.
  unfold compare_entries.
  destruct (Z.leb_spec (timestamp a - timestamp y) 0) as [_ | Hgt].
  - now apply before_head.
  - apply before_cons, IH; [| assumption].
    destruct Hb as [-> | Hb]; [lia | assumption].
Qed.

(** The sort is stable: entries with equal timestamps keep their order. *)
Lemma sort_entries_stable l a b :
  before a b l -> timestamp a = timestamp b -> before a b (sort_entries l).
Proof.
  induction l as [| x l IH]; intros H E.
  - destruct H as ([| ? ?] & ? & ? & E'); discriminate.
  - simpl. apply before_inv in H as [[-> Hb] | H].
    + apply insert_before_ties; [| lia].
      now apply (Permutation_in _ (Permutation_sym (sort_entries_perm l))).
    + now apply before_insert, IH.
Qed.

Lemma before_skipn {A : Type} (a b : A) l n :
  NoDup l -> before a b l -> In a (skipn n l) -> In b (skipn n l).
Proof.
  intros Hnd (l1 & l2 & l3 & ->) Ha.
  rewrite skipn_app in *.
  destruct (Nat.le_gt_cases n (List.length l1)) as [Hle | Hgt].
  - replace (n - List.length l1)%nat with 0%nat by lia. simpl.
    apply in_or_app. right. right. apply in_or_app. right. now left.
  - apply NoDup_remove_2 in Hnd.
    rewrite skipn_all2 in Ha by lia. simpl in Ha.
    destruct (n - List.length l1)%nat as [| j] eqn:Ej; [lia |].
    simpl in Ha. apply In_skipn in Ha.
    destruct Hnd. apply in_or_app. now right.
Qed.

Lemma before_map {A B : Type} (f : A -> B) a b l :
  before a b l -> before (f a) (f b) (map f l).
Proof.
  intros (l1 & l2 & l3 & ->).
  exists (map f l1), (map f l2), (map f l3).
  now rewrite map_app, (map_cons f a), map_app, (map_cons f b).
Qed.

(** X9. Equal timestamps are evicted in insertion order: of two entries
    with the same timestamp, if the one inserted first survives an
    eviction, so does the one inserted after it. *)
Theorem evict_ties_in_insertion_order env m maxSize a b :
  getMemoryMap env = Some m ->
  JsMap.wf m ->
  before a b m ->
  timestamp_of (snd a) = timestamp_of (snd b) ->
  In a (store_entries (evict maxSize env)) ->
  In b (store_entries (evict maxSize env)).
Proof.
  intros Hm Hwf Hab Hts. rewrite (evict_entries env m maxSize Hm).
  unfold evicted. destruct (Z.leb (JsMap.size m) maxSize).
  - intros _. simpl. now apply before_In_r in Hab.
  - destruct a as [ka ea], b as [kb eb]. intros Ha.
    apply (kept_iff m Hwf). apply (kept_iff m Hwf) in Ha.
    refine (before_skipn _ _ _ _ _ _ Ha).
    + apply (NoDup_map_inv key). now apply sorted_keys_NoDup.
    + apply sort_entries_stable; [now apply before_map | exact Hts].
Qed.

Lemma evict_ties_in_insertion_order_witness :
  In ("y", sample_entry 7)
     (store_entries (evict 2 (Some (mkWindow (Some
        [("x", sample_entry 7); ("z", sample_entry 1); ("y", sample_entry 7)]))))).
Proof.
  apply (evict_ties_in_insertion_order
           (Some (mkWindow (Some
              [("x", sample_entry 7); ("z", sample_entry 1); ("y", sample_entry 7)])))
           [("x", sample_entry 7); ("z", sample_entry 1); ("y", sample_entry 7)] 2
           ("x", sample_entry 7) ("y", sample_entry 7)).
  - reflexivity.
  - unfold JsMap.wf. simpl.
    repeat (constructor; [simpl; intuition discriminate |]). constructor.
  - now exists [], [("z", sample_entry 1)], [].
  - reflexivity.
  - vm_compute. tauto.
Defined.

(** *** Refreshing *)

Lemma In_set_other {V : Type} (m : JsMap.t V) k v k' v' :
  In (k', v') (JsMap.set k v m) -> k' <> k -> In (k', v') m.
Proof.
  induction m as [| [k0 v0] m IH]; simpl.
  - intros [E | []] Hne. congruence.
  - destruct (String.eqb_spec k k0) as [-> | Hk]; simpl.
    + intros [E | Hin] Hne; [congruence | now right].
    + intros [E | Hin] Hne; [now left | right; now apply IH].
Qed.

(** X10. Tracking a value again refreshes it: if the call's timestamp is
    larger than that of every other entry, an eviction that follows with a
    bound of at least one keeps the value, however old its keys are. *)
Theorem retracked_survives_eviction env m v k ns l d t maxSize :
  getMemoryMap env = Some m ->
  JsMap.wf m ->
  (forall k' e', In (k', e') m -> k' <> v -> timestamp_of e' < t) ->
  1 <= maxSize ->
  exists e,
    JsMap.get v
      (store_entries (evict maxSize (trackTranslation v k ns l d t env))) = Some e.
Proof.
  intros Hm Hwf Hnewest Hmax.
  pose proof (getMemoryMap_track env m v k ns l d t Hm) as Hm1.
  set (e1 := {| ids := JsSet.add (normalize k)
                         match JsMap.get v m with
                         | Some e => ids e
                         | None => JsSet.empty
                         end;
                type := text;
                metadata := Some {| md_namespace := ns; md_language := l;
                                    trackedAt := Some t |} |}) in *.
  set (m1 := JsMap.set v e1 m) in *.
  assert (Hwf1 : JsMap.wf m1) by now apply set_wf.
  assert (Hin1 : In (v, e1) m1) by (apply get_In, get_set_same).
  rewrite (evict_entries _ m1 maxSize Hm1).
  pose proof (evict_size m1 maxSize Hwf1 ltac:(lia)) as Hsize.
  assert (Hwfr : JsMap.wf (delete_all (evicted maxSize m1) m1))
    by now apply delete_all_wf.
  destruct (JsMap.get v (delete_all (evicted maxSize m1) m1)) as [e |] eqn:Hget;
    [now exists e |].
  exfalso.
  assert (Hout : ~ In (v, e1) (delete_all (evicted maxSize m1) m1)).
  { intros Hin. apply (In_get _ _ _ Hwfr) in Hin. congruence. }
  unfold evicted in *.
  destruct (Z.leb_spec (JsMap.size m1) maxSize) as [Hle | Hgt];
    [now apply Hout |].
  remember (delete_all (firstn (Z.to_nat (JsMap.size m1 - maxSize))
              (sort_entries (map to_sort_entry m1))) m1) as R eqn:HR.
  assert (Hex : exists k' e', In (k', e') R).
  { destruct R as [| [k' e'] r];
      [unfold JsMap.size in *; simpl in *; lia | exists k', e'; now left]. }
  destruct Hex as (k' & e' & Hkept).
  assert (Hne : k' <> v).
  { intros ->. apply (In_get _ _ _ Hwfr) in Hkept. congruence. }
  subst R.
  pose proof (removed_older_eq m1 Hwf1 _ v e1 k' e' Hin1 Hout Hkept) as Hle.
  apply In_delete_all in Hkept as [Hkept _]; [| assumption].
  apply In_set_other in Hkept; [| assumption].
  specialize (Hnewest k' e' Hkept Hne).
  rewrite (timestamp_of_trackedAt e1 t eq_refl) in Hle. lia.
Qed.

Lemma retracked_survives_eviction_witness :
  exists e,
    JsMap.get "a"
      (store_entries
         (evict 1 (trackTranslation "a" "k" None None false 40 sample_env)))
    = Some e.
Proof.
  assert (Hwf : JsMap.wf sample_store).
  { unfold JsMap.wf. simpl.
    repeat (constructor; [simpl; intuition discriminate |]). constructor. }
  assert (Hmax : 1 <= 1) by lia.
  apply (retracked_survives_eviction sample_env sample_store "a" "k"
           None None false 40 1 eq_refl Hwf); [| exact Hmax].
  intros k' e' Hin Hne. simpl in Hin.
  destruct Hin as [E | [E | [E | []]]]; injection E as <- <-;
    first [reflexivity | now destruct Hne].
Defined.

(** ** Bulk load *)

Lemma track_keeps_key env m v k ns l d t v' e x :
  getMemoryMap env = Some m ->
  JsMap.get v' m = Some e ->
  JsSet.has x (ids e) = true ->
  exists e',
    JsMap.get v' (store_entries (trackTranslation v k ns l d t env)) = Some e' /\
    JsSet.has x (ids e') = true.
Proof.
  intros Hm Hget Hx. destruct (String.eqb_spec v' v) as [-> | Hne].
  - destruct (track_keys_grow env m v e k ns l d t Hm Hget) as (e' & He' & _ & Hsub).
    exists e'. split; [exact He' | now apply Hsub].
  - rewrite track_other_value by assumption.
    rewrite (store_entries_get _ _ Hm). now exists e.
Qed.

Lemma track_loop_keeps_key flat language debug clock v' x : forall i env m e,
  getMemoryMap env = Some m ->
  JsMap.get v' m = Some e ->
  JsSet.has x (ids e) = true ->
  exists e',
    JsMap.get v' (store_entries (track_loop flat language debug clock i env))
      = Some e' /\
    JsSet.has x (ids e') = true.
Proof.
  induction flat as [| [k v] flat IH]; intros i env m e Hm Hget Hx; simpl.
  - rewrite (store_entries_get _ _ Hm). now exists e.
  - destruct v as [| c v]; [now apply (IH _ env m e) |].
    destruct (track_keeps_key env m (String c v) k None language debug (clock i)
                v' e x Hm Hget Hx) as (e1 & He1 & Hx1).
    destruct (initialized_after_track env m (String c v) k None language debug
                (clock i) Hm) as [m1 Hm1].
    rewrite (store_entries_get _ _ Hm1) in He1.
    now apply (IH _ _ m1 e1).
Qed.

Lemma track_loop_tracks flat language debug clock k v : forall i env m,
  getMemoryMap env = Some m ->
  In (k, v) flat -> v <> "" ->
  exists e,
    JsMap.get v (store_entries (track_loop flat language debug clock i env))
      = Some e /\
    JsSet.has (normalize k) (ids e) = true.
Proof.
  induction flat as [| [k0 v0] flat IH]; intros i env m Hm Hin Hv; [contradiction |].
  simpl. destruct Hin as [E | Hin].
  - injection E as -> ->. destruct v as [| c v]; [congruence |].
    destruct (initialized_after_track env m (String c v) k None language debug
                (clock i) Hm) as [m1 Hm1].
    pose proof (get_set_same m (String c v)) as Hsame.
    pose proof (getMemoryMap_track env m (String c v) k None language debug
                  (clock i) Hm) as Hm1'.
    rewrite Hm1 in Hm1'. injection Hm1' as ->.
    eapply (track_loop_keeps_key flat language debug clock (String c v) _ _ _ _ _ Hm1).
    + apply get_set_same.
    + cbn [ids]. rewrite set_has_add, String.eqb_refl. reflexivity.
  - destruct v0 as [| c0 v0]; [now apply (IH _ env m) |].
    destruct (initialized_after_track env m (String c0 v0) k0 None language debug
                (clock i) Hm) as [m1 Hm1].
    now apply (IH _ _ m1).
Qed.

(** X11. A bulk load on an initialised store tracks every non-empty string
    leaf of the payload under its flattened key, loses no key that was
    tracked before, and never touches the entry of the empty string. *)
Theorem bulk_load_tracks_every_leaf env m translations ns language debug clock :
  getMemoryMap env = Some m ->
  (forall k v,
     In (k, v) (flattenTranslations translations "") -> v <> "" ->
     exists e,
       JsMap.get v (store_entries
         (trackTranslations translations ns language debug clock env)) = Some e /\
       JsSet.has (normalize k) (ids e) = true) /\
  (forall v e x,
     JsMap.get v m = Some e -> JsSet.has x (ids e) = true ->
     exists e',
       JsMap.get v (store_entries
         (trackTranslations translations ns language debug clock env)) = Some e' /\
       JsSet.has x (ids e') = true) /\
  JsMap.get "" (store_entries
    (trackTranslations translations ns language debug clock env)) = JsMap.get "" m.
Proof.
  intros Hm. unfold trackTranslations.
  destruct env as [win |]; [| discriminate].
  split; [| split].
  - intros k v Hin Hv. now apply (track_loop_tracks _ _ _ _ k v 0%nat _ m).
  - intros v e x Hget Hx. now apply (track_loop_keeps_key _ _ _ _ v x 0%nat _ m e).
  - rewrite track_loop_skips_empty. now rewrite (store_entries_get _ _ Hm).
Qed.

Lemma bulk_load_tracks_every_leaf_witness :
  exists e,
    JsMap.get "Goodbye" (store_entries
      (trackTranslations
         [("welcome", VString "Welcome");
          ("nested", VObject [("goodbye", VString "Goodbye")])]
         "common" "en" false (fun i => Z.of_nat i) empty_env)) = Some e /\
    JsSet.has "nested.goodbye" (ids e) = true.
Proof.
  apply (proj1 (bulk_load_tracks_every_leaf empty_env []
                  [("welcome", VString "Welcome");
                   ("nested", VObject [("goodbye", VString "Goodbye")])]
                  "common" "en" false (fun i => Z.of_nat i) eq_refl)
           "nested.goodbye" "Goodbye").
  - simpl. tauto.
  - discriminate.
Defined.

Lemma track_loop_wf flat language debug clock : forall i env,
  JsMap.wf (store_entries env) ->
  JsMap.wf (store_entries (track_loop flat language debug clock i env)).
Proof.
  induction flat as [| [k v] flat IH]; intros i env Hwf; simpl; [assumption |].
  destruct v; apply IH; [assumption | now apply track_wf].
Qed.

Lemma trackTranslations_wf translations ns language debug clock env :
  JsMap.wf (store_entries env) ->
  JsMap.wf (store_entries (trackTranslations translations ns language debug clock env)).
Proof.
  intros Hwf. unfold trackTranslations. destruct env; [| assumption].
  now apply track_loop_wf.
Qed.

Lemma evict_store_size env maxSize :
  JsMap.wf (store_entries env) -> 0 <= maxSize ->
  JsMap.size (store_entries (evict maxSize env)) =
  Z.min (JsMap.size (store_entries env)) maxSize.
Proof.
  intros Hwf Hmax. destruct (getMemoryMap env) as [m |] eqn:Hm.
  - rewrite (evict_entries env m maxSize Hm).
    rewrite (store_entries_get _ _ Hm) in *. now apply evict_size.
  - unfold evict. rewrite evict_uninitialized by assumption. simpl.
    unfold store_entries. rewrite Hm. unfold JsMap.size. simpl. lia.
Qed.

(** X12. After a load with a positive [maxMemoryMapSize] the continuation
    of [read] ends normally and the store holds at most that many entries,
    whatever it held before and however large the payload was. *)
Theorem loaded_store_within_bound
    live trackNamespaces n translations ns language debug clock env :
  JsMap.wf (store_entries env) ->
  0 < n ->
  live = true ->
  shouldTrackNamespace trackNamespaces ns = true ->
  snd (on_translations_loaded live trackNamespaces (Some n)
         translations ns language debug clock env) = Normal /\
  JsMap.size (store_entries (fst
    (on_translations_loaded live trackNamespaces (Some n)
       translations ns language debug clock env))) <= n.
Proof.
  intros Hwf Hn -> Hns. unfold on_translations_loaded. rewrite Hns. cbn [andb].
  destruct (Z.eqb_spec n 0) as [-> | _]; [lia |].
  split; [apply cleanup_normal; lia |].
  pose proof (trackTranslations_wf translations ns language debug clock env Hwf)
    as Hwf1.
  pose proof (evict_store_size _ n Hwf1 ltac:(lia)) as Hsize.
  unfold evict in Hsize. rewrite Hsize. lia.
Qed.

Lemma loaded_store_within_bound_witness :
  JsMap.size (store_entries (fst
    (on_translations_loaded true None (Some 1)
       [("a", VString "x"); ("b", VString "y")] "common" "en" false
       (fun i => Z.of_nat i) sample_env))) <= 1.
Proof.
  assert (Hwf : JsMap.wf (store_entries sample_env)).
  { unfold JsMap.wf. simpl.
    repeat (constructor; [simpl; intuition discriminate |]). constructor. }
  assert (Hn : 0 < 1) by lia.
  exact (proj2 (loaded_store_within_bound true None 1
                  [("a", VString "x"); ("b", VString "y")] "common" "en" false
                  (fun i => Z.of_nat i) sample_env Hwf Hn eq_refl eq_refl)).
Defined.

(** X13. A [maxMemoryMapSize] of [0] does not mean "keep nothing": the
    value is falsy, the clean-up is skipped, and after a load every
    non-empty leaf of the payload is in the store. *)
Theorem zero_bound_disables_eviction
    trackNamespaces translations ns language debug clock env m k v :
  getMemoryMap env = Some m ->
  shouldTrackNamespace trackNamespaces ns = true ->
  In (k, v) (flattenTranslations translations "") ->
  v <> "" ->
  snd (on_translations_loaded true trackNamespaces (Some 0)
         translations ns language debug clock env) = Normal /\
  exists e,
    JsMap.get v (store_entries (fst
      (on_translations_loaded true trackNamespaces (Some 0)
         translations ns language debug clock env))) = Some e /\
    JsSet.has (normalize k) (ids e) = true.
Proof.
  intros Hm Hns Hin Hv. unfold on_translations_loaded. rewrite Hns. cbn.
  split; [reflexivity |].
  unfold trackTranslations. destruct env as [win |]; [| discriminate].
  now apply (track_loop_tracks _ _ _ _ k v 0%nat _ m).
Qed.

Lemma zero_bound_disables_eviction_witness :
  exists e,
    JsMap.get "x" (store_entries (fst
      (on_translations_loaded true None (Some 0)
         [("a", VString "x"); ("b", VString "y")] "common" "en" false
         (fun i => Z.of_nat i) empty_env))) = Some e /\
    JsSet.has "a" (ids e) = true.
Proof.
  apply (zero_bound_disables_eviction None
           [("a", VString "x"); ("b", VString "y")] "common" "en" false
           (fun i => Z.of_nat i) empty_env [] "a" "x").
  - reflexivity.
  - reflexivity.
  - simpl. tauto.
  - discriminate.
Defined.

(** ** The per-call hook *)


Lemma before_colon_split (k : string) :
  JsString.has_char ":" k = true ->
  exists rest,
    k = before_colon k ++ ":" ++ rest /\
    JsString.has_char ":" (before_colon k) = false.
Proof.
  induction k as [| c k IH]; [discriminate |].
  cbn [JsString.has_char before_colon].
  destruct (Ascii.eqb c ":") eqn:E; simpl.
  - intros _. apply Ascii.eqb_eq in E. subst c. now exists k.
  - intros H. destruct (IH H) as (rest & Hk & Hns).
    exists rest. split; [f_equal; exact Hk | now rewrite E].
Qed.

(** X15. The namespace the hook takes from a key agrees with the key's
    normal form.  When the key holds a colon, the namespace is the part
    before the first colon, holds no colon itself, and [normalizeKey]
    gives that namespace, a dot, and the rest of the key; when the key
    holds no colon there is no namespace and [normalizeKey] returns the
    key. *)
Theorem key_namespace_prefix (key : string) :
  match key_namespace key with
  | Some ns =>
      JsString.has_char ":" ns = false /\
      exists rest,
        key = ns ++ ":" ++ rest /\
        normalizeKey key (Some ns) = ns ++ "." ++ rest
  | None => JsString.has_char ":" key = false /\ normalizeKey key None = key
  end.
Proof.
  unfold key_namespace. rewrite includes_colon.
  destruct (JsString.has_char ":" key) eqn:E.
  - destruct (before_colon_split key E) as (rest & Hkey & Hns).
    split; [exact Hns |]. exists rest. split; [exact Hkey |].
    rewrite normalizeKey_replace. rewrite Hkey at 1.
    now apply replace_first_colon.
  - split; [reflexivity |].
    rewrite normalizeKey_replace. now apply replace_colon_fixed.
Qed.

(** ** Registering the post-processor *)

(** X16. After [registerPostProcessor] the [postProcess] option is an
    array that names ["contentstorage"].  Processors that were configured
    stay, in their order, in front of it; the name is not added when it is
    there already, so registering again changes nothing. *)
Theorem registerPostProcessor_once (postProcess : PostProcessOption) :
  In "contentstorage" (registerPostProcessor postProcess) /\
  registerPostProcessor (PPArray (registerPostProcessor postProcess)) =
    registerPostProcessor postProcess /\
  (forall names, postProcess = PPArray names ->
     registerPostProcessor postProcess = names \/
     (~ In "contentstorage" names /\
      registerPostProcessor postProcess = (names ++ ["contentstorage"])%list)) /\
  (forall name, postProcess = PPName name -> name <> "" ->
     hd_error (registerPostProcessor postProcess) = Some name).
Proof.
  assert (Hgen : forall names,
    let r := if existsb (String.eqb "contentstorage") names then names
             else (names ++ ["contentstorage"])%list in
    In "contentstorage" r /\
    existsb (String.eqb "contentstorage") r = true).
  { intros names r. subst r.
    destruct (existsb (String.eqb "contentstorage") names) eqn:E.
    - split; [| exact E]. apply existsb_exists in E as (x & Hx & E).
      apply String.eqb_eq in E. now subst x.
    - split; [apply in_or_app; right; now left |].
      rewrite existsb_app. simpl. apply orb_true_r. }
  assert (Hall : forall names,
    registerPostProcessor (PPArray names) =
    if existsb (String.eqb "contentstorage") names then names
    else (names ++ ["contentstorage"])%list) by reflexivity.
  assert (Hshape : exists names,
    registerPostProcessor postProcess = registerPostProcessor (PPArray names) /\
    (forall l, postProcess = PPArray l -> l = names) /\
    (forall n, postProcess = PPName n -> n <> "" -> names = [n])).
  { destruct postProcess as [| | [| c n] | l].
    - exists []. repeat split; intros; discriminate.
    - exists []. repeat split; intros; discriminate.
    - exists []. repeat split; intros; try discriminate. congruence.
    - exists [String c n]. repeat split; intros; try discriminate. congruence.
    - exists l. repeat split; intros; try discriminate. congruence. }
  destruct Hshape as (names & Hr & Harr & Hname).
  rewrite Hr, Hall. destruct (Hgen names) as [Hin Hex].
  split; [exact Hin |]. split; [unfold registerPostProcessor; now rewrite Hex |].
  split.
  - intros l Hl. apply Harr in Hl. subst l.
    destruct (existsb (String.eqb "contentstorage") names) eqn:E; [now left |].
    right. split; [| reflexivity].
    intros Hc. assert (existsb (String.eqb "contentstorage") names = true).
    { apply existsb_exists. exists "contentstorage". split; [assumption |].
      apply String.eqb_refl. }
    congruence.
  - intros n Hn Hne. rewrite (Hname n Hn Hne).
    now destruct (existsb (String.eqb "contentstorage") [n]).
Qed.

Lemma registerPostProcessor_once_witness :
  registerPostProcessor (PPArray ["uppercase"]) = ["uppercase"; "contentstorage"] /\
  hd_error (registerPostProcessor (PPName "uppercase")) = Some "uppercase".
Proof.
  destruct (registerPostProcessor_once (PPArray ["uppercase"]))
    as (_ & _ & Harr & _).
  destruct (registerPostProcessor_once (PPName "uppercase"))
    as (_ & _ & _ & Hname).
  split.
  - destruct (Harr ["uppercase"] eq_refl) as [E | [_ E]];
      [discriminate E | exact E].
  - apply (Hname "uppercase" eq_refl). discriminate.
Defined.

(** ** Normaliser and base key together *)

(** X17. One call of [normalize] uses up exactly one colon, if there is
    one, and puts one dot in its place: the colons go down by one (not
    below zero) and the dots go up by one when a colon was there. *)
Theorem normalize_uses_one_colon (k : string) :
  JsString.count ":" (normalize k) = Nat.pred (JsString.count ":" k) /\
  JsString.count "." (normalize k) =
    (JsString.count "." k + if JsString.has_char ":" k then 1 else 0)%nat.
Proof.
  unfold normalize. rewrite normalizeKey_replace.
  induction k as [| c k [IH1 IH2]]; [split; reflexivity |].
  rewrite replace_colon_cons. cbn [JsString.has_char].
  destruct (Ascii.eqb c ":") eqn:E.
  - apply Ascii.eqb_eq in E. subst c. cbn. split; [reflexivity | lia].
  - cbn [JsString.count orb]. rewrite E, IH1, IH2. split; [| lia].
    destruct (JsString.count ":" k); reflexivity.
Qed.

Lemma plural_suffix_plain (w : string) :
  In w plural_suffixes ->
  JsString.has_char ":" w = false /\ JsString.has_char "." w = false.
Proof.
  unfold plural_suffixes. simpl.
  intros H. repeat (destruct H as [<- | H]; [split; reflexivity |]). contradiction.
Qed.

Lemma replace_colon_has_dot (s : string) :
  JsString.has_char ":" s = true ->
  JsString.has_char "." (JsString.replace ":" "." s) = true.
Proof.
  induction s as [| c s IH]; [discriminate |].
  rewrite replace_colon_cons. cbn [JsString.has_char].
  destruct (Ascii.eqb c ":"); simpl; [reflexivity |].
  intros H. rewrite (IH H). apply orb_true_r.
Qed.

Lemma plural_match_replace (s : string) :
  plural_match_here (JsString.replace ":" "." s) = plural_match_here s.
Proof.
  destruct (JsString.has_char ":" s) eqn:Hc.
  - assert (H1 : plural_match_here s = false).
    { destruct (plural_match_here s) eqn:E; [| reflexivity].
      apply plural_match_here_spec in E as (w & Hw & ->).
      apply plural_suffix_plain in Hw as [Hw _].
      cbn in Hc. congruence. }
    rewrite H1.
    destruct (plural_match_here (JsString.replace ":" "." s)) eqn:E;
      [| reflexivity].
    apply plural_match_here_spec in E as (w & Hw & E).
    apply plural_suffix_plain in Hw as [_ Hw].
    apply replace_colon_has_dot in Hc. rewrite E in Hc. cbn in Hc. congruence.
  - apply replace_colon_fixed in Hc. now rewrite Hc.
Qed.

Lemma strip_plural_unfold (s : string) :
  strip_plural s =
  if plural_match_here s then EmptyString
  else match s with
       | EmptyString => EmptyString
       | String c s' => String c (strip_plural s')
       end.
Proof. now destruct s. Qed.

(** X18. Normalising and taking the base key commute: the plural suffix
    holds neither a colon nor a dot, so either order gives the same key. *)
Theorem extractBaseKey_normalize_commute (k : string) :
  extractBaseKey (normalize k) = normalize (extractBaseKey k).
Proof.
  unfold extractBaseKey, normalize. rewrite !normalizeKey_replace.
  induction k as [| c k IH]; [reflexivity |].
  rewrite (strip_plural_unfold (JsString.replace ":" "." (String c k))).
  rewrite plural_match_replace, (strip_plural_unfold (String c k)).
  destruct (plural_match_here (String c k)); [reflexivity |].
  rewrite !replace_colon_cons.
  destruct (Ascii.eqb c ":"); [reflexivity | now rewrite IH].
Qed.

(** ** Flattening: values and prefixes *)

Lemma flatten_value_values v : forall prefix path,
  map snd (flatten_value prefix v) = map snd (string_leaves path v).
Proof.
  induction v as [s | n | b | | items | props IH] using JsValue_nested_ind;
    intros prefix path; try reflexivity.
  rewrite flatten_value_object, string_leaves_object, !map_flat_map.
  apply flat_map_ext_Forall.
  eapply Forall_impl; [| exact IH]. intros [k v] Hv. simpl. apply Hv.
Qed.

(** X19. Whatever the keys are, [flattenTranslations] emits the values of
    the string leaves, all of them, once each, in depth-first order: the
    treatment of prefixes can change a key but never drops, repeats or
    reorders a value. *)
Theorem flatten_values_complete obj prefix :
  map snd (flattenTranslations obj prefix) = map snd (flatten_spec obj) /\
  List.length (flattenTranslations obj prefix) = List.length (flatten_spec obj).
Proof.
  assert (H : map snd (flattenTranslations obj prefix) = map snd (flatten_spec obj)).
  { unfold flattenTranslations, flatten_spec.
    rewrite map_map. cbn [snd]. rewrite !map_flat_map.
    induction obj as [| [k v] obj IH]; simpl; [reflexivity |].
    now rewrite IH, (flatten_value_values v _ [k]). }
  split; [exact H |].
  now rewrite <- (length_map snd), H, length_map.
Qed.

Lemma full_key_nonempty prefix k :
  prefix <> "" -> full_key prefix k = prefix ++ "." ++ k.
Proof. now destruct prefix. Qed.

Lemma flatten_value_prefix v : forall p q,
  p <> "" -> q <> "" ->
  flatten_value (p ++ "." ++ q) v =
  map (fun kv => (p ++ "." ++ fst kv, snd kv)) (flatten_value q v).
Proof.
  induction v as [s | n | b | | items | props IH] using JsValue_nested_ind;
    intros p q Hp Hq; try reflexivity.
  rewrite !flatten_value_object, map_flat_map.
  apply flat_map_ext_Forall.
  eapply Forall_impl; [| exact IH]. intros [k v] Hv. simpl.
  rewrite (full_key_nonempty q) by assumption.
  rewrite full_key_nonempty by (destruct p; [congruence | discriminate]).
  rewrite <- Hv; [| assumption | destruct q; [congruence | discriminate]].
  f_equal. now rewrite string_app_assoc.
Qed.

(** X20. Flattening below a prefix is flattening without one and then
    putting the prefix and a dot in front of every key, provided the
    prefix and the top-level keys are not empty.  This is what makes the
    key of a nested leaf the dotted path to it. *)
Theorem flatten_under_prefix obj prefix :
  prefix <> "" ->
  Forall (fun kv => fst kv <> "") obj ->
  flattenTranslations obj prefix =
  map (fun kv => (prefix ++ "." ++ fst kv, snd kv)) (flattenTranslations obj "").
Proof.
  intros Hp Hkeys. unfold flattenTranslations. rewrite map_flat_map.
  apply flat_map_ext_Forall.
  eapply Forall_impl; [| exact Hkeys]. intros [k v] Hk. simpl in *.
  rewrite full_key_nonempty by assumption. now apply flatten_value_prefix.
Qed.

Lemma flatten_under_prefix_witness :
  flattenTranslations [("home", VObject [("title", VString "Home")])] "pages" =
  [("pages.home.title", "Home")].
Proof.
  assert (Hp : "pages" <> "") by discriminate.
  assert (Hk : Forall (fun kv : string * JsValue => fst kv <> "")
                 [("home", VObject [("title", VString "Home")])])
    by (repeat constructor; discriminate).
  exact (flatten_under_prefix _ "pages" Hp Hk).
Defined.

(** ** Loading the editor script *)

Lemma attempts_shift (a : Z) (m : nat) :
  a :: map (fun i => a + 1 + Z.of_nat i) (seq 0 m) =
  map (fun i => a + Z.of_nat i) (seq 0 (S m)).
Proof.
  change (seq 0 (S m)) with (0%nat :: seq 1 m).
  rewrite <- seq_shift, map_cons, map_map. f_equal; [cbn; lia |].
  apply map_ext. intros i. lia.
Qed.

Lemma loadScript_spec fuel retries onload : forall a,
  (Z.to_nat (retries - a) < fuel)%nat ->
  exists n : nat,
    loadScript fuel retries onload a =
      Some (mkScriptLoad (onload (a + Z.of_nat n))
              (map (fun i => a + Z.of_nat i) (seq 0 (S n)))) /\
    (forall i, (i < n)%nat -> onload (a + Z.of_nat i) = false) /\
    a + Z.of_nat n <= Z.max a retries /\
    (onload (a + Z.of_nat n) = false -> a + Z.of_nat n = Z.max a retries).
Proof.
  induction fuel as [| fuel IH]; intros a Hfuel; [lia |].
  cbn [loadScript]. destruct (onload a) eqn:Ha.
  - exists 0%nat. rewrite Z.add_0_r, Ha. cbn.
    rewrite Z.add_0_r. repeat split; solve [lia | congruence].
  - destruct (Z.ltb_spec a retries) as [Hlt | Hge].
    + destruct (IH (a + 1)) as (n & Hrun & Hfail & Hle & Hlast); [lia |].
      exists (S n). rewrite Hrun. cbn [resolved attempts].
      replace (a + Z.of_nat (S n)) with (a + 1 + Z.of_nat n) by lia.
      split; [| split; [| split]].
      * f_equal. f_equal. apply attempts_shift.
      * intros [| i] Hi; [now rewrite Z.add_0_r |].
        replace (a + Z.of_nat (S i)) with (a + 1 + Z.of_nat i) by lia.
        apply Hfail. lia.
      * lia.
      * intros H. specialize (Hlast H). lia.
    + exists 0%nat. rewrite Z.add_0_r, Ha. cbn.
      rewrite Z.add_0_r. repeat split; solve [lia | congruence].
Qed.

(** X21. In a browser, with no promise stored yet, [loadLiveEditorScript]
    makes the attempts 1, 2, ... up to the first that loads and never more
    than [max 1 retries] of them, so at least one even for [retries <= 0];
    it resolves to [true] exactly when the last attempt made loaded.  Once
    a promise is stored, a later call makes no attempt and resolves to the
    stored outcome whatever its arguments are. *)
Theorem loadLiveEditorScript_attempts win retries onload fuel :
  (Z.to_nat (retries - 1) < fuel)%nat ->
  (exists n : nat,
     loadLiveEditorScript fuel retries onload (Some win) None =
       Some (mkScriptLoad (onload (1 + Z.of_nat n))
               (map (fun i => 1 + Z.of_nat i) (seq 0 (S n))),
             Some (onload (1 + Z.of_nat n))) /\
     (forall i, (i < n)%nat -> onload (1 + Z.of_nat i) = false) /\
     1 + Z.of_nat n <= Z.max 1 retries /\
     (onload (1 + Z.of_nat n) = false -> 1 + Z.of_nat n = Z.max 1 retries)) /\
  (forall r fuel' retries' onload' env',
     loadLiveEditorScript fuel' retries' onload' env' (Some r) =
       Some (mkScriptLoad r [], Some r)).
Proof.
  intros Hfuel. split; [| reflexivity].
  destruct (loadScript_spec fuel retries onload 1 Hfuel)
    as (n & Hrun & Hfail & Hle & Hlast).
  exists n. unfold loadLiveEditorScript. cbn [getContentStorageWindow].
  rewrite Hrun. cbn [resolved]. repeat split; assumption.
Qed.

Lemma loadLiveEditorScript_attempts_witness :
  exists n : nat,
    loadLiveEditorScript 3 2 (fun _ => false) (Some (mkWindow None)) None =
      Some (mkScriptLoad false (map (fun i => 1 + Z.of_nat i) (seq 0 (S n))),
            Some false) /\
    1 + Z.of_nat n = 2.
Proof.
  assert (Hfuel : (Z.to_nat (2 - 1) < 3)%nat) by (vm_compute; lia).
  destruct (proj1 (loadLiveEditorScript_attempts (mkWindow None) 2
                     (fun _ => false) 3 Hfuel))
    as (n & Hrun & _ & _ & Hlast).
  exists n. split; [exact Hrun | exact (Hlast eq_refl)].
Defined.
